(** * Water-bucket puzzle solver: a verified model of [solver.py]

    The development embeds the three layers of the program:
    - the [State] class with its move generator [get_neighbors] and goal
      test [is_goal];
    - the duck-typed [breadth_first_search] with its path reconstruction
      [unravel_bfs], stated once for every type that offers the two methods
      and a hash/equality key;
    - the helpers [argmax] and [puzzle_difficulty].

    Python integers are unbounded, hence [Z]; tuples of integers are
    [list Z]; the [explored] dictionary is a [gmap] from keys to
    predecessors; the set of neighbours is iterated in an order that the
    program does not control, hence in any order ([SetOrder]).  The
    dictionary finds its keys by hash, and it is asked for the empty tuple
    that the search stores as the first predecessor: the hash of a tuple of
    integers is therefore part of the model ([tuple_hash]).  Exceptions are
    made explicit by the [outcome] type, and each of the two [while] loops
    takes a budget of iterations: a call that exhausts it is [OutOfFuel], and
    the theorems show that a large enough budget is never exhausted. *)

From stdpp Require Import base option list gmap numbers strings.
From Stdlib Require Import ZArith Lia.

(* stdpp's solvers clear hypotheses that are already gone. *)
#[local] Set Warnings "-clear-no-such-hyp".

Local Open Scope Z_scope.

(** * The program *)

(** ** Outcomes of a call *)

(** Python exceptions that the program can raise. *)
Inductive exn : Type :=
  | IndexError (msg : string)
  | AttributeError (msg : string).

(** A call returns a value, propagates an exception, or exhausts the
    iteration budget given to its [while] loops. *)
Inductive outcome (A : Type) : Type :=
  | Return (a : A)
  | Raise (e : exn)
  | OutOfFuel.
Arguments Return {A} a.
Arguments Raise {A} e.
Arguments OutOfFuel {A}.

(** Sequencing of calls: an exception or an exhausted budget ends the
    sequence. *)
#[export] Instance outcome_ret : MRet outcome := λ A a, Return a.
#[export] Instance outcome_bind : MBind outcome := λ A B f m,
  match m with
  | Return a => f a
  | Raise e => Raise e
  | OutOfFuel => OutOfFuel
  end.

(** [for x in l: body], threading the loop state and stopping at the first
    exception. *)
Fixpoint for_each {A S : Type} (l : list A) (body : A → S → outcome S) (s : S)
  : outcome S :=
  match l with
  | [] => Return s
  | a :: l' => s' ← body a s; for_each l' body s'
  end.

(** [enumerate(l)] *)
Fixpoint enumerate_from {A : Type} (n : nat) (l : list A) : list (nat * A) :=
  match l with
  | [] => []
  | x :: l' => (n, x) :: enumerate_from (S n) l'
  end.
Definition enumerate {A : Type} (l : list A) : list (nat * A) := enumerate_from 0 l.

(** [t[i]] on a tuple, for a non-negative index. *)
Definition getitem (t : list Z) (i : nat) : outcome Z :=
  match t !! i with
  | Some x => Return x
  | None => Raise (IndexError "tuple index out of range")
  end.

(** ** Python hashes *)

(** A dictionary finds its keys by hash and calls [__eq__] only on the keys
    whose hash is that of the object looked up.  A [State] hashes like its
    tuple of values, so the hash of a tuple of integers is part of what the
    program does.  This is CPython's, from version 3.8 on, with 64-bit
    hashes. *)

(** [hash(x)] for an integer [x]: the residue of [abs(x)] modulo
    [2^61 - 1] with the sign of [x], and -2 instead of -1. *)
Definition PyHASH_MODULUS : Z := 2 ^ 61 - 1.
Definition int_hash (x : Z) : Z :=
  let h := Z.sgn x * (Z.abs x mod PyHASH_MODULUS) in
  if bool_decide (h = -1) then -2 else h.

(** A value as an unsigned 64-bit word, [Py_uhash_t]. *)
Definition uhash (x : Z) : Z := x mod 2 ^ 64.

Definition XXPRIME_1 : Z := 11400714785074694791.
Definition XXPRIME_2 : Z := 14029467366897019727.
Definition XXPRIME_5 : Z := 2870177450012600261.
(** Rotate left by 31 bits. *)
Definition XXROTATE (x : Z) : Z := uhash (Z.lor (Z.shiftl x 31) (Z.shiftr x 33)).

(** One item of the tuple enters the accumulator. *)
Definition tuple_hash_step (acc : Z) (item : Z) : Z :=
  let lane := uhash (int_hash item) in
  let acc := uhash (acc + lane * XXPRIME_2) in
  let acc := XXROTATE acc in
  uhash (acc * XXPRIME_1).

(** [hash(t)] for a tuple [t] of integers, as a signed 64-bit number. *)
Definition tuple_hash (t : list Z) : Z :=
  let acc := foldl tuple_hash_step XXPRIME_5 t in
  let acc := uhash (acc + Z.lxor (Z.of_nat (length t)) (Z.lxor XXPRIME_5 3527539)) in
  if bool_decide (acc = 2 ^ 64 - 1) then 1546275796
  else if bool_decide (acc < 2 ^ 63) then acc else acc - 2 ^ 64.

(** ** Python sets of tuples *)

(** A set under construction is the list of its distinct members in
    insertion order. *)
Definition set_add (x : list Z) (s : list (list Z)) : list (list Z) :=
  if decide (x ∈ s) then s else s ++ [x].

(** Iterating over a set visits every member once, in an order fixed by the
    hash table and not by the program: any permutation may come out. *)
Class SetOrder : Type := {
  iter_order : list (list Z) → list (list Z);
  iter_order_perm : ∀ l, iter_order l ≡ₚ l
}.

(** The order in which the members were inserted is one such order. *)
Definition insertion_order : SetOrder :=
  {| iter_order := λ l, l; iter_order_perm := λ l, reflexivity l |}.

(** The reverse of the insertion order is another. *)
Definition reverse_order : SetOrder :=
  {| iter_order := reverse; iter_order_perm := reverse_Permutation |}.

(** ** The search interface *)

(** What [breadth_first_search] asks of its nodes: the methods [is_goal] and
    [get_neighbors], and [__hash__]/[__eq__].  Between nodes the last two are
    rendered as a [key]: two nodes are the same entry of a dictionary when
    their keys are equal.  The dictionary is also asked for the empty tuple
    [()], which the search stores as the predecessor of the initial node:
    [eq_sentinel k] is [None] when a node of key [k] does not hash like
    [()], so that the dictionary never compares the two, and [Some e] when
    it does and the node's [__eq__], called with [()], raises [e]. *)
Class Searchable (node K : Type) `{Countable K} : Type := {
  key : node → K;
  eq_sentinel : K → option exn;
  is_goal : node → bool;
  get_neighbors : node → outcome (list node)
}.

(** ** class State *)

(** The attributes of a [State]: the water in each bucket, the capacity of
    each bucket, the amount to reach, and whether buckets may be refilled. *)
Record State : Type := mkState {
  values : list Z;
  constraints : list Z;
  target : Z;
  allow_refills : bool
}.

(** [State._replace] *)
Definition State_replace (values : list Z) (index : nat) (new_val : Z) : list Z :=
  take index values ++ [new_val] ++ drop (S index) values.

(** [State.__hash__] is [hash(self.values)], and [State.__eq__] reads
    [other.values]: on a state whose values hash like the empty tuple, the
    dictionary calls [__eq__] with the empty tuple, which has no such
    attribute. *)
Definition State_eq_sentinel (values : list Z) : option exn :=
  if bool_decide (tuple_hash values = tuple_hash [])
  then Some (AttributeError "'tuple' object has no attribute 'values'")
  else None.

Section state_methods.
Context {order : SetOrder}.

(** Body of the first loop: empty bucket [i], fill bucket [i]. *)
Definition empty_fill_body (self : State) (iv : nat * Z)
    (neighbors : list (list Z)) : outcome (list (list Z)) :=
  let '(i, val) := iv in
  let neighbors :=
    if bool_decide (val ≠ 0)
    then set_add (State_replace (values self) i 0) neighbors
    else neighbors in
  c ← getitem (constraints self) i;
  if bool_decide (val ≠ c) && allow_refills self
  then Return (set_add (State_replace (values self) i c) neighbors)
  else Return neighbors.

(** Body of the inner pour loop: pour bucket [i] into bucket [j]. *)
Definition pour_into_body (self : State) (i : nat) (val_i : Z) (jv : nat * Z)
    (neighbors : list (list Z)) : outcome (list (list Z)) :=
  let '(j, val_j) := jv in
  if bool_decide (i ≠ j) then
    c ← getitem (constraints self) j;
    let space_left := c - val_j in
    if bool_decide (space_left >= 0) then
      let moving := Z.min val_i space_left in
      let new_values := State_replace (values self) j (val_j + moving) in
      let new_values := State_replace new_values i (val_i - moving) in
      Return (set_add new_values neighbors)
    else Return neighbors
  else Return neighbors.

(** Body of the outer pour loop. *)
Definition pour_body (self : State) (iv : nat * Z)
    (neighbors : list (list Z)) : outcome (list (list Z)) :=
  let '(i, val_i) := iv in
  if bool_decide (val_i ≠ 0)
  then for_each (enumerate (values self)) (pour_into_body self i val_i) neighbors
  else Return neighbors.

(** [State.get_neighbors] *)
Definition State_get_neighbors (self : State) : outcome (list State) :=
  neighbors ← for_each (enumerate (values self)) (empty_fill_body self) [];
  neighbors ← for_each (enumerate (values self)) (pour_body self) neighbors;
  Return ((λ n, mkState n (constraints self) (target self) (allow_refills self))
            <$> iter_order neighbors).

(** [State.is_goal] *)
Definition State_is_goal (self : State) : bool :=
  existsb (λ val, bool_decide (val = target self)) (values self).

(** [__eq__] and [__hash__] look at [values] only. *)
#[export] Instance State_Searchable : Searchable State (list Z) := {|
  key := values;
  eq_sentinel := State_eq_sentinel;
  is_goal := State_is_goal;
  get_neighbors := State_get_neighbors
|}.

End state_methods.

(** ** breadth_first_search and unravel_bfs *)

(** What a reconstructed path holds: nodes, and the empty tuple [()] stored
    as the predecessor of the initial node. *)
Inductive entry (node : Type) : Type :=
  | Sentinel
  | Node (s : node).
Arguments Sentinel {node}.
Arguments Node {node} s.

Section search.
Context {node K : Type} `{Countable K} {searchable : Searchable node K}.

(** One pass of the body of [for i in state.get_neighbors()]. *)
Definition visit (state : node) (acc : gmap K (entry node) * list node) (i : node)
  : gmap K (entry node) * list node :=
  match acc.1 !! key i with
  | Some _ => acc
  | None => (<[key i := Node state]> acc.1, acc.2 ++ [i])
  end.

(** [() in explored]: the dictionary compares the empty tuple with the keys
    that hash like it, and that comparison raises; without such a key the
    empty tuple is not in the dictionary. *)
Definition sentinel_lookup (explored : gmap K (entry node)) : option exn :=
  head (omap (λ kv, eq_sentinel kv.1) (map_to_list explored)).

(** The [while path[-1] in explored] loop. *)
Fixpoint unravel_loop (fuel : nat) (path : list (entry node))
    (explored : gmap K (entry node)) : outcome (list (entry node)) :=
  match fuel with
  | O => OutOfFuel
  | S fuel =>
      match last path with
      | None => Raise (IndexError "list index out of range")
      | Some Sentinel =>
          match sentinel_lookup explored with
          | Some e => Raise e
          | None => Return path
          end
      | Some (Node s) =>
          match explored !! key s with
          | Some prev => unravel_loop fuel (path ++ [prev]) explored
          | None => Return path
          end
      end
  end.

(** [unravel_bfs] *)
Definition unravel_bfs (fuel : nat) (state : node)
    (explored : gmap K (entry node)) : outcome (list (entry node)) :=
  path ← unravel_loop fuel [Node state] explored;
  Return (reverse path).

(** The [while queue] loop. *)
Fixpoint bfs_loop (fuel : nat) (explored : gmap K (entry node))
    (queue : list node) : outcome (list (entry node)) :=
  match fuel with
  | O => OutOfFuel
  | S fuel =>
      match queue with
      | [] => Return []
      | state :: queue =>
          if is_goal state then unravel_bfs fuel state explored
          else
            neighbors ← get_neighbors state;
            let acc := foldl (visit state) (explored, queue) neighbors in
            bfs_loop fuel acc.1 acc.2
      end
  end.

(** [breadth_first_search] *)
Definition breadth_first_search (fuel : nat) (initial_state : node)
  : outcome (list (entry node)) :=
  bfs_loop fuel {[ key initial_state := Sentinel ]} [initial_state].

(** [puzzle_difficulty] *)
Definition puzzle_difficulty (fuel : nat) (state : node) : outcome nat :=
  backtrace ← breadth_first_search fuel state;
  Return (length backtrace).

End search.

(** ** argmax *)

(** Body of [for i in domain], on the pair [(arg, max_func_val)]. *)
Definition argmax_step {A : Type} (function : A → Z) (acc : A * Z) (i : A) : A * Z :=
  let val := function i in
  if bool_decide (val > acc.2) then (i, val) else acc.

(** [argmax] *)
Definition argmax {A : Type} (domain : list A) (function : A → Z) : outcome A :=
  match domain with
  | [] => Raise (IndexError "domain is empty:")
  | d0 :: _ => Return (foldl (argmax_step function) (d0, function d0) domain).1
  end.

(** ** pretty_print *)

(** [pretty_print] prints
    [list(map(lambda state: state.values if state else (), backtrace))];
    this is the list that it hands to [print].  A [State] defines neither
    [__bool__] nor [__len__] and is truthy; the empty tuple is falsy. *)
Definition pretty_print (backtrace : list (entry State)) : list (list Z) :=
  (λ state, match state with Node s => values s | Sentinel => [] end)
    <$> backtrace.

(** * The vocabulary of the specification *)

(** ** Configurations and moves *)

(** The capacity invariant: one capacity per bucket, and every bucket holds
    between nothing and its capacity. *)
Definition valid (self : State) : Prop :=
  Forall2 (λ val c, 0 ≤ val ≤ c) (values self) (constraints self).

(** The capacity invariant can be checked. *)
#[export] Instance valid_dec (self : State) : Decision (valid self).
Proof. unfold valid. apply _. Defined.

(** The states of one puzzle: same capacities, target and refill rule, and
    the same number of buckets. *)
Definition same_puzzle (s0 self : State) : Prop :=
  constraints self = constraints s0 ∧ target self = target s0 ∧
  allow_refills self = allow_refills s0 ∧
  length (values self) = length (values s0).

(** The neighbour with tuple [n]. *)
Definition with_values (self : State) (n : list Z) : State :=
  mkState n (constraints self) (target self) (allow_refills self).

(** The tuples that one move makes out of the tuple of [self]. *)
Inductive move (self : State) : list Z → Prop :=
  | move_empty i val :
      values self !! i = Some val → val ≠ 0 →
      move self (State_replace (values self) i 0)
  | move_fill i val c :
      values self !! i = Some val → constraints self !! i = Some c →
      val ≠ c → allow_refills self = true →
      move self (State_replace (values self) i c)
  | move_pour i j val_i val_j c :
      values self !! i = Some val_i → values self !! j = Some val_j →
      constraints self !! j = Some c →
      val_i ≠ 0 → i ≠ j → 0 ≤ c - val_j →
      move self
        (State_replace
           (State_replace (values self) j (val_j + Z.min val_i (c - val_j)))
           i (val_i - Z.min val_i (c - val_j))).

(** A neighbour that is bucket [i] filled: it differs from [self], and only
    in that bucket [i] now holds its capacity. *)
Definition fill_of (self : State) (i : nat) (n : State) : Prop :=
  ∃ c, constraints self !! i = Some c ∧
       values n = State_replace (values self) i c ∧
       values n ≠ values self.

(** Every tuple of fill levels that respects the capacities [cs]. *)
Fixpoint all_fills (cs : list Z) : list (list Z) :=
  match cs with
  | [] => [[]]
  | c :: cs => val ← seqZ 0 (c + 1); (val ::.) <$> all_fills cs
  end.

(** The product of [capacity + 1] over all buckets. *)
Definition state_space (cs : list Z) : nat :=
  foldr (λ c n, (Z.to_nat (c + 1) * n)%nat) 1%nat cs.

(** Equality of all four attributes, which is finer than [__eq__]. *)
#[export] Instance State_eq_dec : EqDecision State.
Proof. solve_decision. Defined.

(** The water in all buckets together. *)
Definition total (values : list Z) : Z := foldr Z.add 0 values.

(** ** Searches *)

Section search_vocabulary.
Context {node K : Type} `{Countable K} {searchable : Searchable node K}.

(** A legal move: [y] is among the neighbours that [x] returns. *)
Definition step (x y : node) : Prop :=
  ∃ l, get_neighbors x = Return l ∧ y ∈ l.

(** [route x0 p z]: [p] lists the positions of a sequence of legal moves
    that starts at [x0] and ends at [z]; it makes [length p - 1] moves. *)
Inductive route (x0 : node) : list node → node → Prop :=
  | route_start : route x0 [x0] x0
  | route_move p y z : route x0 p y → step y z → route x0 (p ++ [z]) z.

(** [chain explored x l]: following the predecessors recorded in
    [explored] from [x] visits the nodes [l] and then the sentinel. *)
Inductive chain (explored : gmap K (entry node)) : node → list node → Prop :=
  | chain_root x :
      explored !! key x = Some Sentinel → chain explored x [x]
  | chain_link x p l :
      explored !! key x = Some (Node p) → chain explored p l →
      chain explored x (x :: l).

(** [linked explored l]: every entry of [l] after the first is a node, and
    the predecessor that [explored] records for it is the entry before it. *)
Fixpoint linked (explored : gmap K (entry node)) (l : list (entry node)) : Prop :=
  match l with
  | [] => True
  | e :: rest =>
      match rest with
      | [] => True
      | Sentinel :: _ => False
      | Node s :: _ => explored !! key s = Some e ∧ linked explored rest
      end
  end.

(** The neighbours of [x], none when [get_neighbors] does not return. *)
Definition successors (x : node) : list node :=
  match get_neighbors x with
  | Return l => l
  | _ => []
  end.

(** The nodes within [n] moves of [init]. *)
Fixpoint ball (init : node) (n : nat) : list node :=
  match n with
  | O => [init]
  | S n => ball init n ++ (ball init n ≫= successors)
  end.

(** All sequences of [n] moves from [x]. *)
Fixpoint walks (n : nat) (x : node) : list (list node) :=
  match n with
  | O => [[x]]
  | S n =>
      y ← successors x;
      (x ::.) <$> walks n y
  end.

(** The nodes that the first [fuel] iterations of the [while queue] loop
    append to the queue, in order: a record of [queue.append(i)]. *)
Fixpoint enqueued (fuel : nat) (explored : gmap K (entry node))
    (queue : list node) : list node :=
  match fuel with
  | O => []
  | S fuel =>
      match queue with
      | [] => []
      | state :: queue =>
          if is_goal state then []
          else
            match get_neighbors state with
            | Return neighbors =>
                let acc := foldl (visit state) (explored, queue) neighbors in
                drop (length queue) acc.2 ++ enqueued fuel acc.1 acc.2
            | _ => []
            end
      end
  end.

(** What a returned list says about the search problem: either it is empty
    and no sequence of moves reaches a goal, or it is the sentinel followed by
    the positions of a shortest sequence of moves to a goal. *)
Definition bfs_post (init : node) (res : list (entry node)) : Prop :=
  (res = [] ∧ ∀ p z, route init p z → is_goal z = false) ∨
  (∃ p g, res = Sentinel :: (Node <$> p) ∧ route init p g ∧
          is_goal g = true ∧
          ∀ p' g', route init p' g' → is_goal g' = true →
                   (length p ≤ length p')%nat).

(** What the outcome of a search says about the search problem.  Either the
    empty list is returned and no sequence of moves reaches a goal; or the
    positions [q] of a shortest sequence of moves to a goal are returned
    behind the sentinel, and then no node within [length q] positions of the
    start hashes like the sentinel; or there is such a [q] and the search
    raises what comparing the sentinel with a node within [length q + 1]
    positions of the start raises. *)
Definition bfs_verdict (init : node) (o : outcome (list (entry node))) : Prop :=
  (o = Return [] ∧ ∀ p z, route init p z → is_goal z = false) ∨
  (∃ q g, route init q g ∧ is_goal g = true ∧
     (∀ p' g', route init p' g' → is_goal g' = true →
               (length q ≤ length p')%nat) ∧
     ((o = Return (Sentinel :: (Node <$> q)) ∧
       ∀ p z, route init p z → (length p ≤ length q)%nat →
              eq_sentinel (key z) = None) ∨
      (∃ e p z, o = Raise e ∧ route init p z ∧
                (length p ≤ S (length q))%nat ∧
                eq_sentinel (key z) = Some e))).

(** The invariant of the [while queue] loop of a search from [init] inside
    a set [U] of nodes.  [closed] are the nodes already dequeued and [d] is
    the number of moves after which each key was discovered: the keys of
    [explored] are those of the dequeued and queued nodes, all different;
    the predecessors lead back to [init] along legal moves; the neighbours
    of a dequeued node are explored, at most one move farther; and the queue
    holds nodes of some distance [m] followed by nodes of distance [m + 1]. *)
Record bfs_inv (init : node) (U : node → Prop) (d : K → nat)
    (closed : list node) (explored : gmap K (entry node)) (queue : list node)
  : Prop := {
  inv_nodup : NoDup (key <$> (closed ++ queue));
  inv_dom : ∀ k, is_Some (explored !! k) ↔ k ∈ key <$> (closed ++ queue);
  inv_univ : ∀ x, x ∈ closed ++ queue → U x;
  inv_init : init ∈ closed ++ queue ∧ d (key init) = 0%nat;
  inv_chain : ∀ x, x ∈ closed ++ queue →
    ∃ l, chain explored x l ∧ length l = S (d (key x)) ∧
         route init (reverse l) x;
  inv_closed : ∀ x y, x ∈ closed → step x y →
    y ∈ closed ++ queue ∧ (d (key y) ≤ S (d (key x)))%nat;
  inv_nongoal : ∀ x, x ∈ closed → is_goal x = false;
  inv_levels : ∃ m qa qb, queue = qa ++ qb ∧
    (∀ x, x ∈ qa → d (key x) = m) ∧
    (∀ x, x ∈ qb → d (key x) = S m) ∧
    (∀ x, x ∈ closed → (d (key x) ≤ m)%nat);
  inv_depth : ∀ x, x ∈ closed ++ queue → (d (key x) ≤ length closed)%nat
}.

End search_vocabulary.

Section follows_vocabulary.
Context {node K : Type} `{Countable K} {searchable : Searchable node K}.
Context `{EqDecision node}.

(** [follows x rest]: every node of [rest] is a neighbour of the one before
    it, starting from [x]. *)
Fixpoint follows (x : node) (rest : list node) : bool :=
  match rest with
  | [] => true
  | y :: rest' =>
      match get_neighbors x with
      | Return l => bool_decide (y ∈ l) && follows y rest'
      | _ => false
      end
  end.

End follows_vocabulary.

(** ** Example configurations *)

(** Capacities 5 and 3, target 4, both buckets empty. *)
Definition die_hard : State := mkState [0; 0] [5; 3] 4 true.
(** Capacities 5 and 3 with the second bucket full. *)
Definition second_full : State := mkState [2; 3] [5; 3] 4 true.
(** Capacities 1 and 1, target 0: solved at the start. *)
Definition solved_at_start : State := mkState [0; 0] [1; 1] 0 true.
(** Capacities 2 and 2, target 3: out of reach. *)
Definition out_of_reach : State := mkState [0; 0] [2; 2] 3 true.
(** Capacities 8, 5 and 3 without refills. *)
Definition no_refills : State := mkState [8; 0; 0] [8; 5; 3] 4 false.
(** Capacities 4 and 2, both even, and the odd target 3. *)
Definition even_buckets : State := mkState [0; 0] [4; 2] 3 true.
(** Three units of water, no refills, target 4. *)
Definition short_of_water : State := mkState [3; 0] [5; 3] 4 false.
(** No bucket at all. *)
Definition no_buckets : State := mkState [] [] 0 true.
(** Capacities 5 and 268219835420928158, target 5: filling the second bucket
    makes a tuple that hashes like the empty tuple. *)
Definition hash_collision : State :=
  mkState [0; 0] [5; 268219835420928158] 5 true.
(** One full bucket that holds the target, with a tuple that hashes like the
    empty tuple. *)
Definition lone_collision : State :=
  mkState [1778577755476246539] [1778577755476246539] 1778577755476246539 true.
(** Capacities 4 and 1946615086356333524, target 4: the tuple of two full
    buckets, two moves from the start, hashes like the empty tuple. *)
Definition late_collision : State :=
  mkState [0; 0] [4; 1946615086356333524] 4 true.

(** The six moves that solve [die_hard], for every iteration order. *)
Definition die_hard_moves : list State :=
  with_values die_hard <$> [[5; 0]; [2; 3]; [2; 0]; [0; 2]; [5; 2]; [4; 3]].

(** * Properties *)

(** ** The program at work *)

(** The neighbours of (2, 3) under capacities (5, 3), in insertion order:
    two buckets emptied, the first one filled, the second poured into the
    first, and the first poured into the full second, which changes
    nothing. *)
Example neighbors_of_second_full :
  State_get_neighbors (order := insertion_order) second_full
  = Return (with_values second_full <$> [[0; 3]; [5; 3]; [2; 0]; [2; 3]; [5; 0]]).
Proof. reflexivity. Qed.

(** Capacities (2, 2) cannot make 3: the queue runs empty. *)
Example search_out_of_reach :
  breadth_first_search (searchable := @State_Searchable insertion_order)
    20 out_of_reach = Return [].
Proof. vm_compute. reflexivity. Qed.

(** With capacities (4, 1946615086356333524) the outcome depends on the
    order in which the first set of neighbours iterates: the goal (4, 0)
    first, and the search returns; the other neighbour first, and its own
    neighbour (4, 1946615086356333524), which hashes like the empty tuple, is
    in the dictionary when the goal is found. *)
Example late_collision_order :
  breadth_first_search (searchable := @State_Searchable insertion_order)
    10 late_collision
  = Return (Sentinel ::
            (Node <$> [late_collision; with_values late_collision [4; 0]])) ∧
  breadth_first_search (searchable := @State_Searchable reverse_order)
    10 late_collision
  = Raise (AttributeError "'tuple' object has no attribute 'values'").
Proof. split; vm_compute; reflexivity. Qed.

(** A missing capacity raises. *)
Example neighbors_missing_capacity :
  State_get_neighbors (order := insertion_order) (mkState [0; 0] [2] 3 true)
  = Raise (IndexError "tuple index out of range").
Proof. reflexivity. Qed.

(** Among equal maxima [argmax] returns the first. *)
Example argmax_tie : argmax [(1, 7); (2, 9); (3, 9); (4, 2)] snd = Return (2, 9).
Proof. reflexivity. Qed.

(** ** Loops and sets *)

Lemma outcome_bind_Return {A B : Type} (a : A) (f : A → outcome B) :
  Return a ≫= f = f a.
Proof. reflexivity. Qed.

(** [enumerate] pairs every element with its index. *)
Lemma elem_of_enumerate_from {A : Type} (l : list A) (n i : nat) (x : A) :
  (i, x) ∈ enumerate_from n l ↔ ∃ j, i = (n + j)%nat ∧ l !! j = Some x.
Proof.
  revert n. induction l as [|a l IH]; intros n; simpl.
  - split; [by intros ?%elem_of_nil | by intros (j & _ & ?)].
  - rewrite elem_of_cons, IH. split.
    + intros [[= -> ->] | (j & -> & Hj)].
      * exists 0%nat. split; [lia | done].
      * exists (S j). split; [lia | done].
    + intros ([|j] & -> & Hj); simpl in Hj.
      * left. f_equal; [lia | congruence].
      * right. exists j. split; [lia | done].
Qed.

Lemma elem_of_enumerate {A : Type} (l : list A) (i : nat) (x : A) :
  (i, x) ∈ enumerate l ↔ l !! i = Some x.
Proof.
  unfold enumerate. rewrite elem_of_enumerate_from. split.
  - by intros (j & -> & Hj).
  - intros Hi. by exists i.
Qed.

(** Adding to a set. *)
Lemma elem_of_set_add (x n : list Z) (s : list (list Z)) :
  n ∈ set_add x s ↔ n ∈ s ∨ n = x.
Proof.
  unfold set_add. case_decide as Hx.
  - split; [by left | by intros [? | ->]].
  - rewrite elem_of_app, list_elem_of_singleton. done.
Qed.

Lemma NoDup_set_add (x : list Z) (s : list (list Z)) :
  NoDup s → NoDup (set_add x s).
Proof.
  intros Hs. unfold set_add. case_decide as Hx; [done|].
  apply NoDup_app. split_and!; [done | | apply NoDup_singleton].
  intros y Hy ->%list_elem_of_singleton. done.
Qed.

(** A loop whose body only adds members to a set returns the set enlarged
    by what every iteration adds. *)
Lemma for_each_collect {A : Type} (l : list A)
    (body : A → list (list Z) → outcome (list (list Z)))
    (P : A → list Z → Prop) (s : list (list Z)) :
  (∀ a s, a ∈ l → NoDup s →
     ∃ s', body a s = Return s' ∧ NoDup s' ∧ ∀ n, n ∈ s' ↔ n ∈ s ∨ P a n) →
  NoDup s →
  ∃ s', for_each l body s = Return s' ∧ NoDup s' ∧
        ∀ n, n ∈ s' ↔ n ∈ s ∨ ∃ a, a ∈ l ∧ P a n.
Proof.
  revert s. induction l as [|a l IH]; intros s Hbody Hs; simpl.
  - exists s. split_and!; [done..|]. intros n. split; [by left|].
    intros [? | (a & []%elem_of_nil & _)]. done.
  - destruct (Hbody a s) as (s1 & -> & Hs1 & Hin1); [left | done |].
    destruct (IH s1) as (s2 & Hs2 & Hnd2 & Hin2); [|done|].
    { intros a' s' Ha'. apply Hbody. by right. }
    exists s2. split_and!; [done..|]. intros n.
    rewrite Hin2, Hin1. setoid_rewrite elem_of_cons. naive_solver.
Qed.

(** An iteration that raises makes the whole loop raise. *)
Lemma for_each_raises {A S : Type} (l : list A) (body : A → S → outcome S) (a : A) :
  a ∈ l → (∀ s s', body a s ≠ Return s') →
  ∀ s s', for_each l body s ≠ Return s'.
Proof.
  intros Ha Hbody. induction l as [|b l IH]; [by apply elem_of_nil in Ha|].
  intros s s'. simpl. apply elem_of_cons in Ha as [<- | Ha].
  - specialize (Hbody s). destruct (body a s) as [s1| |]; simpl; [|done..].
    by destruct (Hbody s1).
  - destruct (body b s) as [s1| |]; simpl; [|done..]. by apply IH.
Qed.

(** A loop whose iterations return or raise [e] returns or raises [e]. *)
Lemma for_each_outcome {A S : Type} (l : list A) (body : A → S → outcome S)
    (e : exn) (s : S) :
  (∀ a s, (∃ s', body a s = Return s') ∨ body a s = Raise e) →
  (∃ s', for_each l body s = Return s') ∨ for_each l body s = Raise e.
Proof.
  intros Hbody. revert s. induction l as [|a l IH]; intros s; simpl.
  - left. by exists s.
  - destruct (Hbody a s) as [[s' ->] | ->]; [apply IH | by right].
Qed.

(** The first value that a function finds in a list. *)
Lemma head_omap_None {A B : Type} (f : A → option B) (l : list A) :
  head (omap f l) = None ↔ ∀ x, x ∈ l → f x = None.
Proof.
  induction l as [|a l IH]; simpl.
  - split; [by intros _ x ?%elem_of_nil | done].
  - destruct (f a) as [b|] eqn:Ha; simpl.
    + split; [done|]. intros Hall.
      specialize (Hall a (list_elem_of_here _ _)). congruence.
    + rewrite IH. split.
      * intros Hall x [->|Hx]%elem_of_cons; [done | by apply Hall].
      * intros Hall x Hx. apply Hall. by right.
Qed.

Lemma head_omap_Some {A B : Type} (f : A → option B) (l : list A) (b : B) :
  head (omap f l) = Some b → ∃ x, x ∈ l ∧ f x = Some b.
Proof.
  induction l as [|a l IH]; simpl; [done|].
  destruct (f a) as [b'|] eqn:Ha; simpl.
  - intros [= ->]. exists a. split; [by left | done].
  - intros (x & Hx & Hb)%IH. exists x. split; [by right | done].
Qed.

(** ** The moves that get_neighbors returns *)

(** Within bounds [_replace] overwrites one position. *)
Lemma State_replace_insert (l : list Z) (i : nat) (x : Z) :
  (i < length l)%nat → State_replace l i x = <[i:=x]> l.
Proof. intros Hi. unfold State_replace. symmetry. by apply insert_take_drop. Qed.

Lemma State_replace_lookup (l : list Z) (i : nat) (x v : Z) :
  l !! i = Some v → State_replace l i x = <[i:=x]> l.
Proof. intros Hi%lookup_lt_Some. by apply State_replace_insert. Qed.

(** [_replace] with the value already there changes nothing; with another
    value it changes the tuple. *)
Lemma State_replace_same (l : list Z) (i : nat) (x : Z) :
  l !! i = Some x → State_replace l i x = l.
Proof.
  intros Hi. rewrite (State_replace_lookup l i x x Hi). by apply list_insert_id.
Qed.

Lemma State_replace_changed (l : list Z) (i : nat) (x v : Z) :
  l !! i = Some v → x ≠ v → State_replace l i x ≠ l.
Proof.
  intros Hi Hx Heq. rewrite (State_replace_lookup l i x v Hi) in Heq.
  assert (Hl : <[i:=x]> l !! i = Some x).
  { apply list_lookup_insert_eq. by eapply lookup_lt_Some. }
  rewrite Heq in Hl. congruence.
Qed.

Section neighbors.
Context {order : SetOrder}.

(** With a capacity for every bucket, [get_neighbors] returns the distinct
    tuples that one move produces, each once. *)
Lemma get_neighbors_moves (self : State) :
    (length (values self) ≤ length (constraints self))%nat →
    ∃ ns, State_get_neighbors self = Return (with_values self <$> ns) ∧
          NoDup ns ∧ ∀ n, n ∈ ns ↔ move self n.
Proof.
    intros Hlen.
    assert (Hget : ∀ i (v : Z), values self !! i = Some v →
              ∃ c, constraints self !! i = Some c).
    { intros i v Hi%lookup_lt_Some. apply lookup_lt_is_Some. lia. }
    unfold State_get_neighbors.
    destruct (for_each_collect (enumerate (values self)) (empty_fill_body self)
      (λ iv n, (iv.2 ≠ 0 ∧ n = State_replace (values self) iv.1 0) ∨
               (∃ c, constraints self !! iv.1 = Some c ∧ iv.2 ≠ c ∧
                     allow_refills self = true ∧
                     n = State_replace (values self) iv.1 c)) [])
      as (s1 & -> & Hnd1 & Hin1); [|apply NoDup_nil_2|].
    { intros [i v] s Hi%elem_of_enumerate Hs. unfold empty_fill_body, getitem.
      destruct (Hget i v Hi) as [c Hc]. rewrite Hc. simpl.
      destruct (bool_decide_reflect (v ≠ 0)) as [Hv|Hv];
        destruct (bool_decide_reflect (v ≠ c)) as [Hvc|Hvc];
        destruct (allow_refills self) eqn:Hr; simpl;
        eexists; (split; [reflexivity|]);
        (split; [by repeat apply NoDup_set_add|]);
        intros n; rewrite ?elem_of_set_add; naive_solver. }
    destruct (for_each_collect (enumerate (values self)) (pour_body self)
      (λ iv n, iv.2 ≠ 0 ∧ ∃ j val_j c,
          values self !! j = Some val_j ∧ constraints self !! j = Some c ∧
          iv.1 ≠ j ∧ 0 ≤ c - val_j ∧
          n = State_replace
                (State_replace (values self) j (val_j + Z.min iv.2 (c - val_j)))
                iv.1 (iv.2 - Z.min iv.2 (c - val_j))) s1)
      as (s2 & Hs2 & Hnd2 & Hin2); [|done|].
    { intros [i v] s Hi%elem_of_enumerate Hs. unfold pour_body.
      destruct (bool_decide_reflect (v ≠ 0)) as [Hv|Hv]; simpl.
      2: { exists s. split_and!; [done..|]. naive_solver. }
      destruct (for_each_collect (enumerate (values self)) (pour_into_body self i v)
        (λ jv n, i ≠ jv.1 ∧ ∃ c, constraints self !! jv.1 = Some c ∧
            0 ≤ c - jv.2 ∧
            n = State_replace
                  (State_replace (values self) jv.1 (jv.2 + Z.min v (c - jv.2)))
                  i (v - Z.min v (c - jv.2))) s)
        as (s' & -> & Hnd' & Hin'); [|done|].
      { intros [j vj] s0 Hj%elem_of_enumerate Hs0. unfold pour_into_body, getitem.
        destruct (Hget j vj Hj) as [c Hc]. rewrite Hc. simpl.
        destruct (bool_decide_reflect (i ≠ j)) as [Hij|Hij]; simpl.
        2: { exists s0. split_and!; [done..|]. naive_solver. }
        destruct (bool_decide_reflect (c - vj >= 0)) as [Hsp|Hsp]; simpl.
        2: { exists s0. split_and!; [done..|]. intros n. split; [by left|].
             intros [? | (_ & c' & ? & ? & _)]; [done|].
             simplify_eq. lia. }
        eexists. split; [reflexivity|]. split; [by apply NoDup_set_add|].
        intros n. rewrite elem_of_set_add. split.
        - intros [? | ->]; [by left|]. right. split; [done|].
          exists c. split_and!; [done | lia | done].
        - intros [? | (_ & c' & ? & ? & ->)]; [by left|]. simplify_eq. by right. }
      exists s'. split_and!; [done..|]. intros n. rewrite Hin'. split.
      - intros [? | ([j vj] & Hj%elem_of_enumerate & ? & c & ? & ? & ->)];
          [by left|]. right. split; [done|]. by exists j, vj, c.
      - intros [? | (_ & j & vj & c & ? & ? & ? & ? & ->)]; [by left|].
        right. exists (j, vj). rewrite elem_of_enumerate. naive_solver. }
    simpl. rewrite Hs2. simpl. exists (iter_order s2). split_and!; [done | |].
    { by rewrite iter_order_perm. }
    intros n. rewrite iter_order_perm, Hin2, Hin1. split.
    - intros [[[]%elem_of_nil | ([i v] & Hi%elem_of_enumerate & Hm)]
               | ([i v] & Hi%elem_of_enumerate & Hm)]; simpl in Hm.
      + destruct Hm as [[? ->] | (c & ? & ? & ? & ->)].
        * by eapply move_empty.
        * by eapply move_fill.
      + destruct Hm as (? & j & vj & c & ? & ? & ? & ? & ->).
        by eapply move_pour.
    - intros [i v Hi Hv | i v c Hi Hc Hv Hr | i j vi vj c Hi Hj Hc Hv Hij Hsp].
      + left. right. exists (i, v). rewrite elem_of_enumerate. naive_solver.
      + left. right. exists (i, v). rewrite elem_of_enumerate. naive_solver.
      + right. exists (i, vi). rewrite elem_of_enumerate. split; [done|].
        split; [done|]. by exists j, vj, c.
Qed.

(** With a capacity for every bucket, the first loop collects the tuples
    that emptying or filling one bucket produces. *)
Lemma first_loop_moves (self : State) :
    (length (values self) ≤ length (constraints self))%nat →
    ∃ s, for_each (enumerate (values self)) (empty_fill_body self) [] = Return s ∧
      NoDup s ∧
      ∀ n, n ∈ s ↔
        (∃ i val, values self !! i = Some val ∧ val ≠ 0 ∧
           n = State_replace (values self) i 0) ∨
        (∃ i val c, values self !! i = Some val ∧
           constraints self !! i = Some c ∧ val ≠ c ∧
           allow_refills self = true ∧ n = State_replace (values self) i c).
Proof.
    intros Hlen.
    assert (Hget : ∀ i (v : Z), values self !! i = Some v →
              ∃ c, constraints self !! i = Some c).
    { intros i v Hi%lookup_lt_Some. apply lookup_lt_is_Some. lia. }
    destruct (for_each_collect (enumerate (values self)) (empty_fill_body self)
      (λ iv n, (iv.2 ≠ 0 ∧ n = State_replace (values self) iv.1 0) ∨
               (∃ c, constraints self !! iv.1 = Some c ∧ iv.2 ≠ c ∧
                     allow_refills self = true ∧
                     n = State_replace (values self) iv.1 c)) [])
      as (s1 & Hs1 & Hnd1 & Hin1); [|apply NoDup_nil_2|].
    { intros [i v] s Hi%elem_of_enumerate Hs. unfold empty_fill_body, getitem.
      destruct (Hget i v Hi) as [c Hc]. rewrite Hc. simpl.
      destruct (bool_decide_reflect (v ≠ 0)) as [Hv|Hv];
        destruct (bool_decide_reflect (v ≠ c)) as [Hvc|Hvc];
        destruct (allow_refills self) eqn:Hr; simpl;
        eexists; (split; [reflexivity|]);
        (split; [by repeat apply NoDup_set_add|]);
        intros n; rewrite ?elem_of_set_add; naive_solver. }
    exists s1. split_and!; [done..|]. intros n. rewrite Hin1. split.
    - intros [[]%elem_of_nil | ([i v] & Hi%elem_of_enumerate & Hm)].
      simpl in Hm. destruct Hm as [[? ->] | (c & ? & ? & ? & ->)].
      + left. by exists i, v.
      + right. by exists i, v, c.
    - intros [(i & v & Hi & Hv & ->) | (i & v & c & Hi & Hc & Hv & Hr & ->)];
        right; exists (i, v); rewrite elem_of_enumerate; naive_solver.
Qed.

(** A bucket without a capacity makes [self.constraints[i]] raise. *)
Lemma get_neighbors_raises (self : State) (l : list State) :
    State_get_neighbors self = Return l →
    (length (values self) ≤ length (constraints self))%nat.
Proof.
    intros Hret. destruct (decide (length (values self) ≤ length (constraints self))%nat)
      as [|Hlen]; [done|]. exfalso.
    destruct (lookup_lt_is_Some_2 (values self) (length (constraints self)))
      as [v Hv]; [lia|].
    unfold State_get_neighbors in Hret.
    destruct (for_each _ (empty_fill_body self) _) as [s1| |] eqn:Hloop;
      [|done..].
    revert Hloop. apply for_each_raises with (a := (length (constraints self), v)).
    { by apply elem_of_enumerate. }
    intros s s'. unfold empty_fill_body, getitem.
    rewrite (lookup_ge_None_2 (constraints self)); [|lia]. done.
Qed.

(** [get_neighbors] returns, or raises the [IndexError] of a missing
    capacity. *)
Lemma get_neighbors_outcome (self : State) :
  (∃ l, State_get_neighbors self = Return l) ∨
  State_get_neighbors self = Raise (IndexError "tuple index out of range").
Proof.
  assert (Hfirst : ∀ iv s, (∃ s', empty_fill_body self iv s = Return s') ∨
            empty_fill_body self iv s
            = Raise (IndexError "tuple index out of range")).
  { intros [i v] s. unfold empty_fill_body, getitem.
    destruct (constraints self !! i); simpl; [left|by right].
    destruct (_ && _); by eexists. }
  assert (Hinner : ∀ i v jv s, (∃ s', pour_into_body self i v jv s = Return s') ∨
            pour_into_body self i v jv s
            = Raise (IndexError "tuple index out of range")).
  { intros i v [j vj] s. unfold pour_into_body, getitem.
    destruct (bool_decide (i ≠ j)); [|left; by eexists].
    destruct (constraints self !! j); simpl; [left|by right].
    destruct (bool_decide _); by eexists. }
  assert (Hsecond : ∀ iv s, (∃ s', pour_body self iv s = Return s') ∨
            pour_body self iv s = Raise (IndexError "tuple index out of range")).
  { intros [i v] s. unfold pour_body.
    destruct (bool_decide (v ≠ 0)); [|left; by eexists].
    apply for_each_outcome, Hinner. }
  unfold State_get_neighbors.
  destruct (for_each_outcome (enumerate (values self)) (empty_fill_body self)
              _ [] Hfirst) as [[s1 ->] | ->]; [|by right].
  rewrite outcome_bind_Return.
  destruct (for_each_outcome (enumerate (values self)) (pour_body self)
              _ s1 Hsecond) as [[s2 ->] | ->]; [|by right].
  left. by eexists.
Qed.

End neighbors.

(** The moves in terms of list updates. *)
Lemma move_inv (self : State) (n : list Z) :
  move self n →
  (∃ i val, values self !! i = Some val ∧ val ≠ 0 ∧ n = <[i:=0]> (values self)) ∨
  (∃ i val c, values self !! i = Some val ∧ constraints self !! i = Some c ∧
     val ≠ c ∧ allow_refills self = true ∧ n = <[i:=c]> (values self)) ∨
  (∃ i j val_i val_j c, values self !! i = Some val_i ∧
     values self !! j = Some val_j ∧ constraints self !! j = Some c ∧
     val_i ≠ 0 ∧ i ≠ j ∧ 0 ≤ c - val_j ∧
     n = <[i:=val_i - Z.min val_i (c - val_j)]>
           (<[j:=val_j + Z.min val_i (c - val_j)]> (values self))).
Proof.
  intros [i v Hi Hv | i v c Hi Hc Hv Hr | i j vi vj c Hi Hj Hc Hv Hij Hsp].
  - left. exists i, v. by rewrite (State_replace_lookup _ _ _ v).
  - right. left. exists i, v, c. by rewrite (State_replace_lookup _ _ _ v).
  - right. right. exists i, j, vi, vj, c.
    rewrite (State_replace_lookup _ j _ vj) by done.
    rewrite (State_replace_lookup _ i _ vi); [done|].
    by rewrite list_lookup_insert_ne.
Qed.

(** A move keeps the number of buckets and the capacity invariant. *)
Lemma move_length (self : State) (n : list Z) :
  move self n → length n = length (values self).
Proof.
  intros [(i & v & _ & _ & ->) | [(i & v & c & _ & _ & _ & _ & ->)
    | (i & j & vi & vj & c & _ & _ & _ & _ & _ & _ & ->)]]%move_inv;
    by rewrite ?length_insert.
Qed.

Lemma move_valid (self : State) (n : list Z) :
  valid self → move self n → valid (with_values self n).
Proof.
  unfold valid. simpl. intros Hvalid Hmove.
  assert (Hat : ∀ i v c, values self !! i = Some v →
            constraints self !! i = Some c → 0 ≤ v ≤ c).
  { intros i v c Hv Hc. by eapply (Forall2_lookup_lr _ _ _ _ _ _ Hvalid). }
  assert (Hcap : ∀ i v, values self !! i = Some v →
            ∃ c, constraints self !! i = Some c ∧ 0 ≤ v ≤ c).
  { intros i v Hv. destruct (Forall2_lookup_l _ _ _ _ _ Hvalid Hv) as (c & Hc & ?).
    by exists c. }
  apply move_inv in Hmove
    as [(i & v & Hi & _ & ->) | [(i & v & c & Hi & Hc & _ & _ & ->)
    | (i & j & vi & vj & c & Hi & Hj & Hc & _ & _ & Hsp & ->)]].
  - destruct (Hcap i v Hi) as (c & Hc & ?).
    rewrite <- (list_insert_id (constraints self) i c Hc).
    apply Forall2_insert; [done | lia].
  - pose proof (Hat i v c Hi Hc).
    rewrite <- (list_insert_id (constraints self) i c Hc).
    apply Forall2_insert; [done | lia].
  - destruct (Hcap i vi Hi) as (ci & Hci & ?). pose proof (Hat j vj c Hj Hc).
    rewrite <- (list_insert_id (constraints self) i ci Hci).
    apply Forall2_insert; [|lia].
    rewrite <- (list_insert_id (constraints self) j c Hc).
    apply Forall2_insert; [done | lia].
Qed.

(** A valid state has one capacity per bucket. *)
Lemma valid_length (self : State) :
  valid self → length (values self) = length (constraints self).
Proof. apply Forall2_length. Qed.

(** [all_fills] lists every valid tuple, and [state_space] counts them. *)
Lemma elem_of_all_fills (vs cs : list Z) :
  Forall2 (λ val c, 0 ≤ val ≤ c) vs cs → vs ∈ all_fills cs.
Proof.
  induction 1 as [|v c vs cs Hv _ IH]; simpl; [by left|].
  apply list_elem_of_bind. exists v. split.
  - by apply list_elem_of_fmap_2.
  - apply elem_of_seqZ. lia.
Qed.

Lemma length_all_fills (cs : list Z) : length (all_fills cs) = state_space cs.
Proof.
  induction cs as [|c cs IH]; simpl; [done|].
  rewrite <- IH, <- (length_seqZ 0 (c + 1)).
  induction (seqZ 0 (c + 1)) as [|v l IHl]; [done|].
  rewrite bind_cons, length_app, length_fmap, IHl. done.
Qed.

(** ** Breadth-first search over any searchable type *)

Section search_theory.
Context {node K : Type} `{Countable K} {searchable : Searchable node K}.

(** The shape of a sequence of moves. *)
Lemma route_nonempty x0 p z : route x0 p z → (1 ≤ length p)%nat.
Proof. destruct 1; rewrite ?length_app; simpl; lia. Qed.

Lemma route_last x0 p z : route x0 p z → last p = Some z.
Proof. destruct 1; [done | apply last_snoc]. Qed.

Lemma route_head x0 p z : route x0 p z → head p = Some x0.
Proof.
    induction 1 as [|p y z Hr IH Hs]; [done|].
    destruct p; [done | by simplify_eq/=].
Qed.

(** A sequence of moves stays at its start or begins with a move. *)
Lemma route_first_step (x0 : node) p z :
  route x0 p z → z = x0 ∨ ∃ y, step x0 y.
Proof.
  induction 1 as [|p y z Hr IH Hs]; [by left|]. right.
  destruct IH as [-> | ?]; [by exists z | done].
Qed.

(** Sequences of moves read from their first move. *)
Lemma route_uncons (x0 : node) p z :
  route x0 p z →
  (p = [x0] ∧ z = x0) ∨ ∃ y p', p = x0 :: p' ∧ step x0 y ∧ route y p' z.
Proof.
  induction 1 as [|p y z Hr IH Hs]; [by left|]. right.
  destruct IH as [[-> ->] | (y' & p' & -> & Hs' & Hr')].
  - exists z, [z]. split_and!; [done | done | apply route_start].
  - exists y', (p' ++ [z]). split_and!; [done | done |].
    by eapply route_move.
Qed.

(** A sequence without a move stays at its start. *)
Lemma route_single (x0 : node) q h :
  route x0 q h → length q = 1%nat → q = [x0] ∧ h = x0.
Proof.
  intros Hr Hlen.
  destruct (route_uncons _ _ _ Hr) as [? | (y & p' & -> & _ & Hr')]; [done|].
  apply route_nonempty in Hr'. simpl in Hlen. lia.
Qed.

(** [walks n] lists every sequence of [n] moves. *)
Lemma route_walks (n : nat) : ∀ x0 p z,
  route x0 p z → length p = S n → p ∈ walks n x0.
Proof.
  induction n as [|n IH]; intros x0 p z Hr Hlen.
  - destruct (route_uncons _ _ _ Hr) as [[-> _] | (y & p' & -> & _ & Hr')].
    + by left.
    + apply route_nonempty in Hr'. simpl in Hlen. lia.
  - destruct (route_uncons _ _ _ Hr) as [[-> _] | (y & p' & -> & Hs & Hr')];
      [done|].
    simpl. apply list_elem_of_bind. exists y. split.
    + apply list_elem_of_fmap_2. apply (IH _ _ z); [done|].
      simpl in Hlen. lia.
    + destruct Hs as (l & Hl & Hy). unfold successors. by rewrite Hl.
Qed.

(** Later entries of [explored] leave the recorded predecessors alone. *)
Lemma chain_mono explored explored' x l :
    (∀ k e, explored !! k = Some e → explored' !! k = Some e) →
    chain explored x l → chain explored' x l.
Proof. intros Hsub. induction 1; [apply chain_root | eapply chain_link]; eauto. Qed.

(** What [() in explored] finds. *)
Lemma sentinel_lookup_None (explored : gmap K (entry node)) :
  sentinel_lookup explored = None ↔
  ∀ k v, explored !! k = Some v → eq_sentinel k = None.
Proof.
  unfold sentinel_lookup. rewrite head_omap_None. split.
  - intros Hall k v Hk. apply (Hall (k, v)). by apply elem_of_map_to_list.
  - intros Hall [k v] Hk%elem_of_map_to_list. by apply (Hall k v).
Qed.

Lemma sentinel_lookup_Some (explored : gmap K (entry node)) (e : exn) :
  sentinel_lookup explored = Some e →
  ∃ k v, explored !! k = Some v ∧ eq_sentinel k = Some e.
Proof.
  intros ([k v] & Hk%elem_of_map_to_list & He)%head_omap_Some. by exists k, v.
Qed.

Lemma sentinel_lookup_singleton (k : K) (v : entry node) :
  sentinel_lookup ({[ k := v ]} : gmap K (entry node)) = eq_sentinel k.
Proof.
  unfold sentinel_lookup. rewrite map_to_list_singleton. simpl.
  by destruct (eq_sentinel k).
Qed.

(** [unravel_bfs] follows the predecessors back to the sentinel, looks the
    sentinel up, and reverses what it collected. *)
Lemma unravel_loop_chain explored x l :
    chain explored x l →
    ∀ fuel pre, (length l < fuel)%nat →
      unravel_loop fuel (pre ++ [Node x]) explored
      = match sentinel_lookup explored with
        | Some e => Raise e
        | None => Return (pre ++ (Node <$> l) ++ [Sentinel])
        end.
Proof.
    induction 1 as [x Hx | x p l Hx Hc IH]; intros fuel pre Hfuel.
    - destruct fuel as [|[|fuel]]; simpl in Hfuel; [lia..|].
      simpl. rewrite last_snoc, Hx, last_snoc. by rewrite <- app_assoc.
    - destruct fuel as [|fuel]; simpl in Hfuel; [lia|].
      simpl. rewrite last_snoc, Hx, IH by lia. by rewrite <- app_assoc.
Qed.

Lemma unravel_bfs_chain explored x l fuel :
    chain explored x l → (length l < fuel)%nat →
    unravel_bfs fuel x explored
    = match sentinel_lookup explored with
      | Some e => Raise e
      | None => Return (Sentinel :: (Node <$> reverse l))
      end.
Proof.
    intros Hc Hfuel. unfold unravel_bfs.
    pose proof (unravel_loop_chain explored x l Hc fuel [] Hfuel) as Hloop.
    simpl in Hloop. rewrite Hloop.
    destruct (sentinel_lookup explored); [done|].
    rewrite outcome_bind_Return, reverse_app, reverse_singleton.
    by rewrite fmap_reverse.
Qed.

(** More fuel does not change what a loop returns or raises. *)
Lemma unravel_loop_mono (fuel fuel' : nat) path explored
    (o : outcome (list (entry node))) :
  unravel_loop fuel path explored = o → o ≠ OutOfFuel → (fuel ≤ fuel')%nat →
  unravel_loop fuel' path explored = o.
Proof.
  revert fuel' path. induction fuel as [|fuel IH]; intros fuel' path Ho Hne Hle.
  { simpl in Ho. congruence. }
  destruct fuel' as [|fuel']; [lia|]. simpl in *.
  destruct (last path) as [[|s]|]; [done| |done].
  destruct (explored !! key s); [|done]. apply IH; [done | done | lia].
Qed.

Lemma unravel_bfs_mono (fuel fuel' : nat) state explored
    (o : outcome (list (entry node))) :
  unravel_bfs fuel state explored = o → o ≠ OutOfFuel → (fuel ≤ fuel')%nat →
  unravel_bfs fuel' state explored = o.
Proof.
  unfold unravel_bfs. intros Ho Hne Hle.
  destruct (unravel_loop fuel [Node state] explored) as [path|e|] eqn:Hloop.
  - by rewrite (unravel_loop_mono fuel fuel' _ _ (Return path)).
  - by rewrite (unravel_loop_mono fuel fuel' _ _ (Raise e)).
  - simpl in Ho. congruence.
Qed.

Lemma bfs_loop_mono (fuel fuel' : nat) explored queue
    (o : outcome (list (entry node))) :
  bfs_loop fuel explored queue = o → o ≠ OutOfFuel → (fuel ≤ fuel')%nat →
  bfs_loop fuel' explored queue = o.
Proof.
  revert fuel' explored queue.
  induction fuel as [|fuel IH]; intros fuel' explored queue Ho Hne Hle.
  { simpl in Ho. congruence. }
  destruct fuel' as [|fuel']; [lia|]. simpl in *.
  destruct queue as [|state queue]; [done|].
  destruct (is_goal state).
  - apply (unravel_bfs_mono fuel); [done | done | lia].
  - destruct (get_neighbors state) as [ns|e|]; simpl in *; [|done..].
    apply IH; [done | done | lia].
Qed.

Lemma breadth_first_search_mono (fuel fuel' : nat) (init : node)
    (res : list (entry node)) :
  breadth_first_search fuel init = Return res → (fuel ≤ fuel')%nat →
  breadth_first_search fuel' init = Return res.
Proof. intros Hres Hle. by apply (bfs_loop_mono fuel). Qed.

Lemma breadth_first_search_mono_outcome (fuel fuel' : nat) (init : node)
    (o : outcome (list (entry node))) :
  breadth_first_search fuel init = o → o ≠ OutOfFuel → (fuel ≤ fuel')%nat →
  breadth_first_search fuel' init = o.
Proof. intros Ho Hne Hle. by apply (bfs_loop_mono fuel). Qed.

(** A search that raises with some budget returns with none. *)
Lemma raise_never_returns (init : node) (fuel0 : nat) (e : exn) :
  breadth_first_search fuel0 init = Raise e →
  ∀ fuel res, breadth_first_search fuel init ≠ Return res.
Proof.
  intros Hraise fuel res Hres.
  pose proof (breadth_first_search_mono fuel (max fuel fuel0) init res Hres
                ltac:(lia)) as H1.
  pose proof (breadth_first_search_mono_outcome fuel0 (max fuel fuel0) init _
                Hraise ltac:(done) ltac:(lia)) as H2.
  congruence.
Qed.

(** Whatever the budget, [unravel_bfs] on a state whose predecessors lead to
    the sentinel runs out of it or ends as with a budget that is enough. *)
Lemma unravel_bfs_chain_any explored x l fuel :
  chain explored x l →
  unravel_bfs fuel x explored = OutOfFuel ∨
  unravel_bfs fuel x explored
  = match sentinel_lookup explored with
    | Some e => Raise e
    | None => Return (Sentinel :: (Node <$> reverse l))
    end.
Proof.
  intros Hc.
  pose proof (unravel_bfs_chain explored x l (max fuel (S (length l))) Hc
                ltac:(lia)) as Hbig.
  destruct (unravel_bfs fuel x explored) as [res|e|] eqn:Ho; [| |by left]; right.
  - rewrite <- Hbig. symmetry. by apply (unravel_bfs_mono fuel); [| |lia].
  - rewrite <- Hbig. symmetry. by apply (unravel_bfs_mono fuel); [| |lia].
Qed.

(** A goal at the start is dequeued at once: the search returns it behind
    the sentinel, unless it hashes like the sentinel. *)
Lemma bfs_goal_initial (init : node) (fuel : nat) :
  is_goal init = true → (3 ≤ fuel)%nat →
  breadth_first_search fuel init
  = match eq_sentinel (key init) with
    | Some e => Raise e
    | None => Return [Sentinel; Node init]
    end.
Proof.
  intros Hgoal Hfuel. destruct fuel as [|[|[|fuel]]]; [lia..|].
  unfold breadth_first_search, bfs_loop, unravel_bfs. rewrite Hgoal.
  simpl. rewrite lookup_singleton_eq. simpl.
  rewrite sentinel_lookup_singleton. by destruct (eq_sentinel (key init)).
Qed.

(** What a verdict says of the outcome. *)
Lemma bfs_verdict_not_out init o : bfs_verdict init o → o ≠ OutOfFuel.
Proof.
  by intros [[-> _] | (q & g & _ & _ & _ & [[-> _] | (e & p & z & -> & _)])].
Qed.

Lemma bfs_verdict_post init res : bfs_verdict init (Return res) → bfs_post init res.
Proof.
  intros [[[= ->] Hnone]
         | (q & g & Hq & Hg & Hmin & [[[= ->] _] | (e & p & z & ? & _)])].
  - by left.
  - right. by exists q, g.
  - done.
Qed.

Lemma bfs_verdict_unsolvable init o :
  bfs_verdict init o → (∀ p z, route init p z → is_goal z = false) →
  o = Return [].
Proof.
  intros [[-> _] | (q & g & Hq & Hg & _)] Hnone; [done|].
  rewrite (Hnone q g Hq) in Hg. done.
Qed.

(** Without a node that hashes like the sentinel the search returns. *)
Lemma bfs_verdict_clear init o :
  bfs_verdict init o →
  (∀ p z, route init p z → eq_sentinel (key z) = None) →
  ∃ res, o = Return res ∧ bfs_post init res.
Proof.
  intros [[-> Hnone] | (q & g & Hq & Hg & Hmin
                        & [[-> _] | (e & p & z & -> & Hp & _ & He)])] Hclear.
  - exists []. split; [done | by left].
  - eexists. split; [done|]. right. by exists q, g.
  - rewrite (Hclear p z Hp) in He. done.
Qed.

(** With a node that hashes like the sentinel no farther from the start than
    the nearest goal, the search raises. *)
Lemma bfs_verdict_collision init o p z q0 g0 :
  bfs_verdict init o → route init p z → is_Some (eq_sentinel (key z)) →
  route init q0 g0 → is_goal g0 = true →
  (∀ q g, route init q g → is_goal g = true → (length p ≤ length q)%nat) →
  ∃ e p' z', o = Raise e ∧ route init p' z' ∧ eq_sentinel (key z') = Some e.
Proof.
  intros Hv Hp [e He] Hq0 Hg0 Hnear.
  destruct Hv as [[-> Hnone] | (q & g & Hq & Hg & Hmin
                    & [[-> Hclear] | (e' & p' & z' & -> & Hp' & _ & He')])].
  - rewrite (Hnone q0 g0 Hq0) in Hg0. done.
  - rewrite (Hclear p z Hp) in He; [done|]. by apply (Hnear q g).
  - by exists e', p', z'.
Qed.

(** At a goal, the start alone is a shortest sequence of moves. *)
Lemma bfs_post_goal_initial (init : node) :
  is_goal init = true → bfs_post init [Sentinel; Node init].
Proof.
  intros Hgoal. right. exists [init], init.
  split_and!; [done | apply route_start | done |].
  intros p' g' Hr _. by apply route_nonempty in Hr.
Qed.

(** A search that found a goal did not return the empty list. *)
Lemma bfs_post_solvable (init : node) res p g :
  bfs_post init res → route init p g → is_goal g = true →
  ∃ q h, res = Sentinel :: (Node <$> q) ∧ route init q h ∧ is_goal h = true ∧
         ∀ p' g', route init p' g' → is_goal g' = true →
                  (length q ≤ length p')%nat.
Proof.
  intros [[_ Hnone] | Hsome] Hr Hg; [|done].
  rewrite (Hnone p g Hr) in Hg. done.
Qed.

(** The verdict on a start that is a goal. *)
Lemma bfs_verdict_goal_initial (init : node) :
  is_goal init = true →
  bfs_verdict init
    match eq_sentinel (key init) with
    | Some e => Raise e
    | None => Return [Sentinel; Node init]
    end.
Proof.
  intros Hgoal. right. exists [init], init.
  split_and!; [apply route_start | done | |].
  - intros p' g' Hr _. by apply route_nonempty in Hr.
  - destruct (eq_sentinel (key init)) as [e|] eqn:He.
    + right. exists e, [init], init.
      split_and!; [done | apply route_start | simpl; lia | done].
    + left. split; [done|]. intros p z Hp Hlen.
      pose proof (route_nonempty _ _ _ Hp).
      destruct (route_single init p z Hp) as [_ ->]; [simpl in Hlen; lia | done].
Qed.

(** What the [for] loop over the neighbours leaves behind. *)
Lemma foldl_visit state ns explored queue :
    ∃ news,
      (foldl (visit state) (explored, queue) ns).2 = queue ++ news ∧
      (∀ k, (foldl (visit state) (explored, queue) ns).1 !! k
            = if decide (k ∈ key <$> news) then Some (Node state)
              else explored !! k) ∧
      NoDup (key <$> news) ∧
      (∀ x, x ∈ news → x ∈ ns ∧ explored !! key x = None) ∧
      (∀ x, x ∈ ns → is_Some (explored !! key x) ∨ key x ∈ key <$> news).
Proof.
    revert explored queue. induction ns as [|a ns IH]; intros explored queue.
    - exists []. simpl. rewrite app_nil_r.
      split_and!; [done | done | constructor | |]; by intros x ?%elem_of_nil.
    - simpl. destruct (explored !! key a) as [e|] eqn:Ha.
      + replace (visit state (explored, queue) a) with (explored, queue)
          by (unfold visit; simpl; by rewrite Ha).
        destruct (IH explored queue) as (news & Hq & Hl & Hnd & Hnew & Hold).
        exists news. split_and!; [done..| |].
        * intros x Hx. destruct (Hnew x Hx). split; [by right | done].
        * intros x [->|Hx]%elem_of_cons; [left; by rewrite Ha | by apply Hold].
      + replace (visit state (explored, queue) a)
          with (<[key a := Node state]> explored, queue ++ [a])
          by (unfold visit; simpl; by rewrite Ha).
        destruct (IH (<[key a := Node state]> explored) (queue ++ [a]))
          as (news & Hq & Hl & Hnd & Hnew & Hold).
        assert (Hfresh : key a ∉ key <$> news).
        { intros (x & Hk & Hx)%list_elem_of_fmap.
          destruct (Hnew x Hx) as [_ Hnone].
          by rewrite <- Hk, lookup_insert_eq in Hnone. }
        exists (a :: news). split_and!.
        * by rewrite Hq, <- app_assoc.
        * intros k. rewrite Hl, fmap_cons.
          destruct (decide (k = key a)) as [->|Hk].
          -- rewrite lookup_insert_eq. rewrite (decide_True (P := _ ∈ _ :: _));
               [by case_decide | by left].
          -- rewrite lookup_insert_ne by done.
             repeat case_decide; try done; set_solver.
        * rewrite fmap_cons. by apply NoDup_cons.
        * intros x [->|Hx]%elem_of_cons; [split; [by left | done]|].
          destruct (Hnew x Hx) as [? Hnone]. split; [by right|].
          destruct (decide (key x = key a)) as [Hk|Hk].
          -- by rewrite Hk, lookup_insert_eq in Hnone.
          -- by rewrite lookup_insert_ne in Hnone.
        * intros x [->|Hx]%elem_of_cons; [right; rewrite fmap_cons; by left|].
          rewrite fmap_cons. destruct (Hold x Hx) as [Hs|Hin]; [|right; by right].
          destruct (decide (key x = key a)) as [Hk|Hk].
          -- right. rewrite Hk. by left.
          -- left. by rewrite lookup_insert_ne in Hs.
Qed.

(** *** The invariant of the [while queue] loop *)

Section invariant.
(** The search starts at [init] and stays inside a universe [U] of nodes on
    which [get_neighbors] returns and [key] tells nodes apart. *)
Variable init : node.
Variable U : node → Prop.
Hypothesis U_init : U init.
Hypothesis U_neighbors :
  ∀ x, U x → ∃ l, get_neighbors x = Return l ∧ ∀ y, y ∈ l → U y.
Hypothesis U_key_inj : ∀ x y, U x → U y → key x = key y → x = y.

(** The invariant holds when the loop is entered. *)
Lemma bfs_inv_initial :
      bfs_inv init U (λ _, 0%nat) [] {[ key init := Sentinel ]} [init].
Proof.
      split; simpl.
      - apply NoDup_singleton.
      - intros k. rewrite list_elem_of_singleton.
        destruct (decide (k = key init)) as [->|Hk].
        + rewrite lookup_singleton_eq. naive_solver.
        + rewrite lookup_singleton_ne by done. split; [by intros [? ?] | done].
      - by intros x ->%list_elem_of_singleton.
      - split; [by left | done].
      - intros x ->%list_elem_of_singleton. exists [init]. split_and!.
        + apply chain_root. by rewrite lookup_singleton_eq.
        + done.
        + apply route_start.
      - by intros x y ?%elem_of_nil.
      - by intros x ?%elem_of_nil.
      - exists 0%nat, [init], []. split_and!; [done | done | |].
        + by intros x ?%elem_of_nil.
        + by intros x ?%elem_of_nil.
      - done.
Qed.

(** The head of the queue is a queued node of least distance, and no
    dequeued node is farther. *)
Lemma inv_head_least d closed explored h queue :
      bfs_inv init U d closed explored (h :: queue) →
      (∀ y, y ∈ h :: queue →
         (d (key h) ≤ d (key y) ≤ S (d (key h)))%nat) ∧
      (∀ x, x ∈ closed → (d (key x) ≤ d (key h))%nat).
Proof.
      intros [_ _ _ _ _ _ _ (m & qa & qb & Hq & Ha & Hb & Hc) _].
      destruct qa as [|a qa]; simpl in Hq.
      - subst qb. assert (Hdh : d (key h) = S m) by (apply Hb; by left).
        split.
        + intros y Hy. rewrite (Hb y Hy). lia.
        + intros x Hx. specialize (Hc x Hx). lia.
      - injection Hq as <- ->.
        assert (Hdh : d (key h) = m) by (apply Ha; by left).
        split.
        + intros y [->|[Hy|Hy]%elem_of_app]%elem_of_cons.
          * lia.
          * rewrite (Ha y); [lia | by right].
          * rewrite (Hb y Hy). lia.
        + intros x Hx. specialize (Hc x Hx). lia.
Qed.

(** Every sequence of moves from [init] ends at a dequeued node, or
    crosses a queued node; either way no later than the distances say. *)
Lemma inv_frontier d closed explored queue p z :
      bfs_inv init U d closed explored queue → route init p z →
      (z ∈ closed ∧ (S (d (key z)) ≤ length p)%nat) ∨
      (∃ y, y ∈ queue ∧ (S (d (key y)) ≤ length p)%nat).
Proof.
      intros Hinv. induction 1 as [|p y z Hr IH Hs].
      - destruct (inv_init _ _ _ _ _ _ Hinv) as [[Hi|Hi]%elem_of_app Hd].
        + left. split; [done|]. rewrite Hd. simpl. lia.
        + right. exists init. split; [done|]. rewrite Hd. simpl. lia.
      - rewrite length_app. simpl. destruct IH as [[Hy Hd] | (q & Hq & Hd)].
        + destruct (inv_closed _ _ _ _ _ _ Hinv y z Hy Hs) as [[Hz|Hz]%elem_of_app Hdz].
          * left. split; [done | lia].
          * right. exists z. split; [done | lia].
        + right. exists q. split; [done | lia].
Qed.

(** One iteration that does not return keeps the invariant. *)
Lemma bfs_inv_step d closed explored h queue ns :
      bfs_inv init U d closed explored (h :: queue) →
      is_goal h = false → get_neighbors h = Return ns →
      ∃ d', bfs_inv init U d' (closed ++ [h])
              (foldl (visit h) (explored, queue) ns).1
              (foldl (visit h) (explored, queue) ns).2.
Proof.
      intros Hinv Hgoal Hns.
      destruct (foldl_visit h ns explored queue)
        as (news & Hq & Hl & Hnd & Hnew & Hold).
      rewrite Hq. set (explored' := (foldl (visit h) (explored, queue) ns).1) in *.
      set (d' := λ k, if decide (k ∈ key <$> news) then S (d (key h)) else d k).
      exists d'.
      pose proof (inv_head_least _ _ _ _ _ Hinv) as [Hleast Hcl_le].
      assert (Hseen : (closed ++ [h]) ++ queue ++ news
                      = (closed ++ h :: queue) ++ news).
      { by rewrite <- !app_assoc. }
      assert (Hh : h ∈ closed ++ h :: queue).
      { apply elem_of_app. right. by left. }
      assert (HUh : U h) by by apply (inv_univ _ _ _ _ _ _ Hinv).
      assert (HUns : ∀ y, y ∈ ns → U y).
      { destruct (U_neighbors h HUh) as (l & Hl' & HU).
        by assert (l = ns) as -> by congruence. }
      assert (Hold_fresh : ∀ x, x ∈ closed ++ h :: queue → key x ∉ key <$> news).
      { intros x Hx (y & Hk & Hy)%list_elem_of_fmap.
        destruct (Hnew y Hy) as [_ Hnone].
        assert (is_Some (explored !! key x)) as [e He].
        { apply (inv_dom _ _ _ _ _ _ Hinv). by apply list_elem_of_fmap_2. }
        congruence. }
      assert (Hd_old : ∀ x, x ∈ closed ++ h :: queue → d' (key x) = d (key x)).
      { intros x Hx. unfold d'. rewrite decide_False; [done | by apply Hold_fresh]. }
      assert (Hd_new : ∀ x, x ∈ news → d' (key x) = S (d (key h))).
      { intros x Hx. unfold d'. rewrite decide_True; [done|].
        by apply list_elem_of_fmap_2. }
      assert (Hkeep : ∀ k e, explored !! k = Some e → explored' !! k = Some e).
      { intros k e He. unfold explored'. rewrite Hl, decide_False; [done|].
        intros (y & -> & Hy)%list_elem_of_fmap.
        destruct (Hnew y Hy) as [_ Hnone]. congruence. }
      assert (Hnew_seen : ∀ y, y ∈ ns →
                y ∈ closed ++ h :: queue ∨ y ∈ news).
      { intros y Hy. destruct (Hold y Hy) as [Hs | (y' & Hk & Hy')%list_elem_of_fmap].
        - apply (inv_dom _ _ _ _ _ _ Hinv) in Hs
            as (y' & Hk & Hy')%list_elem_of_fmap.
          left. rewrite (U_key_inj y y'); [done | by apply HUns | | done].
          by apply (inv_univ _ _ _ _ _ _ Hinv).
        - right. rewrite (U_key_inj y y'); [done | by apply HUns | | done].
          apply HUns. by apply Hnew. }
      split.
      - rewrite Hseen, fmap_app. apply NoDup_app. split_and!.
        + apply (inv_nodup _ _ _ _ _ _ Hinv).
        + intros k (x & -> & Hx)%list_elem_of_fmap. by apply Hold_fresh.
        + done.
      - intros k. rewrite Hseen, fmap_app, elem_of_app. unfold explored'.
        rewrite Hl. case_decide as Hk.
        + split; [by right | by eexists].
        + rewrite (inv_dom _ _ _ _ _ _ Hinv). naive_solver.
      - intros x. rewrite Hseen. intros [Hx|Hx]%elem_of_app.
        + by apply (inv_univ _ _ _ _ _ _ Hinv).
        + apply HUns. by apply Hnew.
      - rewrite Hseen. destruct (inv_init _ _ _ _ _ _ Hinv) as [Hi Hd]. split.
        + apply elem_of_app. by left.
        + by rewrite Hd_old.
      - intros x. rewrite Hseen. intros [Hx|Hx]%elem_of_app.
        + destruct (inv_chain _ _ _ _ _ _ Hinv x Hx) as (l & Hc & Hlen & Hr).
          exists l. split_and!; [by eapply chain_mono | by rewrite Hd_old | done].
        + destruct (inv_chain _ _ _ _ _ _ Hinv h Hh) as (l & Hc & Hlen & Hr).
          exists (x :: l). split_and!.
          * eapply chain_link; [|by eapply chain_mono].
            unfold explored'. rewrite Hl, decide_True; [done|].
            by apply list_elem_of_fmap_2.
          * simpl. by rewrite Hlen, Hd_new.
          * rewrite reverse_cons. eapply route_move; [done|].
            exists ns. split; [done | by apply Hnew].
      - intros x y [Hx | ->%list_elem_of_singleton]%elem_of_app Hs.
        + destruct (inv_closed _ _ _ _ _ _ Hinv x y Hx Hs) as [Hy Hd].
          assert (Hx' : x ∈ closed ++ h :: queue) by (apply elem_of_app; by left).
          rewrite Hseen, !Hd_old by done. split; [|done].
          apply elem_of_app. by left.
        + destruct Hs as (l & Hl' & Hy). assert (l = ns) as -> by congruence.
          rewrite Hseen, (Hd_old h) by done.
          destruct (Hnew_seen y Hy) as [Hy'|Hy'].
          * split; [apply elem_of_app; by left|]. rewrite Hd_old by done.
            apply elem_of_app in Hy' as [Hy'|Hy'].
            -- specialize (Hcl_le y Hy'). lia.
            -- specialize (Hleast y Hy'). lia.
          * split; [apply elem_of_app; by right|]. by rewrite Hd_new.
      - intros x [Hx | ->%list_elem_of_singleton]%elem_of_app; [|done].
        by apply (inv_nongoal _ _ _ _ _ _ Hinv).
      - destruct (inv_levels _ _ _ _ _ _ Hinv) as (m & qa & qb & Hqq & Ha & Hb & Hc).
        assert (Hin_q : ∀ x, x ∈ queue → x ∈ closed ++ h :: queue).
        { intros x Hx. apply elem_of_app. right. by right. }
        assert (Hin_c : ∀ x, x ∈ closed → x ∈ closed ++ h :: queue).
        { intros x Hx. apply elem_of_app. by left. }
        destruct qa as [|a qa]; simpl in Hqq.
        + subst qb. assert (Hdh : d (key h) = S m) by (apply Hb; by left).
          exists (S m), queue, news. split_and!.
          * done.
          * intros x Hx. rewrite Hd_old by auto. apply Hb. by right.
          * intros x Hx. by rewrite Hd_new, Hdh.
          * intros x [Hx | ->%list_elem_of_singleton]%elem_of_app.
            -- rewrite Hd_old by auto. specialize (Hc x Hx). lia.
            -- rewrite Hd_old by auto. lia.
        + injection Hqq as <- ->.
          assert (Hdh : d (key h) = m) by (apply Ha; by left).
          exists m, qa, (qb ++ news). split_and!.
          * by rewrite app_assoc.
          * intros x Hx. rewrite Hd_old.
            -- apply Ha. by right.
            -- apply Hin_q, elem_of_app. by left.
          * intros x [Hx|Hx]%elem_of_app.
            -- rewrite Hd_old; [by apply Hb|]. apply Hin_q, elem_of_app. by right.
            -- by rewrite Hd_new, Hdh.
          * intros x [Hx | ->%list_elem_of_singleton]%elem_of_app.
            -- rewrite Hd_old by auto. by apply Hc.
            -- rewrite Hd_old by auto. lia.
      - intros x. rewrite Hseen, length_app. simpl.
        intros [Hx|Hx]%elem_of_app.
        + rewrite Hd_old by done. specialize (inv_depth _ _ _ _ _ _ Hinv x Hx). lia.
        + rewrite Hd_new by done. specialize (inv_depth _ _ _ _ _ _ Hinv h Hh). lia.
Qed.

(** What a sequence of moves reaches, within one position more than the
    distance of the head of the queue, has been dequeued or queued. *)
Lemma inv_reach d closed explored h queue p z :
  bfs_inv init U d closed explored (h :: queue) → route init p z →
  (length p ≤ S (d (key h)))%nat → z ∈ closed ++ h :: queue.
Proof.
  intros Hinv Hr. destruct (inv_head_least _ _ _ _ _ Hinv) as [Hleast _].
  destruct Hr as [|p y z Hr Hs]; intros Hlen.
  - apply (inv_init _ _ _ _ _ _ Hinv).
  - rewrite length_app in Hlen. simpl in Hlen.
    destruct (inv_frontier _ _ _ _ _ _ Hinv Hr) as [[Hy _] | (y' & Hy' & Hd)].
    + by apply (inv_closed _ _ _ _ _ _ Hinv y z Hy Hs).
    + specialize (Hleast y' Hy'). lia.
Qed.

(** The verdict when a goal is at the head of the queue. *)
Lemma inv_verdict d closed explored h queue l :
  bfs_inv init U d closed explored (h :: queue) → is_goal h = true →
  chain explored h l → length l = S (d (key h)) → route init (reverse l) h →
  bfs_verdict init
    match sentinel_lookup explored with
    | Some e => Raise e
    | None => Return (Sentinel :: (Node <$> reverse l))
    end.
Proof.
  intros Hinv Hgoal Hc Hlen Hr. right. exists (reverse l), h.
  destruct (inv_head_least _ _ _ _ _ Hinv) as [Hleast Hcl].
  split_and!; [done | done | |].
  - intros p' g' Hr' Hg'. rewrite length_reverse, Hlen.
    destruct (inv_frontier _ _ _ _ _ _ Hinv Hr') as [[Hz _] | (y & Hy & Hdy)].
    + apply (inv_nongoal _ _ _ _ _ _ Hinv) in Hz. congruence.
    + specialize (Hleast y Hy). lia.
  - rewrite length_reverse, Hlen.
    destruct (sentinel_lookup explored) as [e|] eqn:Hs.
    + right. apply sentinel_lookup_Some in Hs as (k & v & Hk & He).
      assert (Hin : k ∈ key <$> (closed ++ h :: queue)).
      { apply (inv_dom _ _ _ _ _ _ Hinv). by eexists. }
      apply list_elem_of_fmap in Hin as (x & -> & Hx).
      destruct (inv_chain _ _ _ _ _ _ Hinv x Hx) as (lx & _ & Hlx & Hrx).
      exists e, (reverse lx), x. split_and!; [done | done | | done].
      rewrite length_reverse, Hlx.
      apply elem_of_app in Hx as [Hx|Hx].
      * specialize (Hcl x Hx). lia.
      * specialize (Hleast x Hx). lia.
    + left. split; [done|]. intros p z Hp Hlp.
      assert (is_Some (explored !! key z)) as [v Hv].
      { apply (inv_dom _ _ _ _ _ _ Hinv). apply list_elem_of_fmap_2.
        by eapply inv_reach. }
      by eapply (proj1 (sentinel_lookup_None explored) Hs).
Qed.

(** From any state of the loop that satisfies the invariant, the loop runs
    out of its budget or ends with a verdict. *)
Lemma bfs_loop_end fuel : ∀ d closed explored queue,
  bfs_inv init U d closed explored queue →
  bfs_loop fuel explored queue = OutOfFuel ∨
  bfs_verdict init (bfs_loop fuel explored queue).
Proof.
  induction fuel as [|fuel IH]; intros d closed explored queue Hinv; [by left|].
  destruct queue as [|h queue]; simpl.
  - right. left. split; [done|]. intros p z Hr.
    destruct (inv_frontier _ _ _ _ _ _ Hinv Hr)
      as [[Hz _] | (y & []%elem_of_nil & _)].
    by apply (inv_nongoal _ _ _ _ _ _ Hinv).
  - assert (Hh : h ∈ closed ++ h :: queue) by (apply elem_of_app; right; by left).
    destruct (is_goal h) eqn:Hgoal.
    + destruct (inv_chain _ _ _ _ _ _ Hinv h Hh) as (l & Hc & Hlen & Hr).
      destruct (unravel_bfs_chain_any explored h l fuel Hc) as [-> | ->];
        [by left|].
      right. by eapply inv_verdict.
    + destruct (U_neighbors h) as (ns & Hns & _);
        [by apply (inv_univ _ _ _ _ _ _ Hinv)|].
      rewrite Hns, outcome_bind_Return.
      destruct (bfs_inv_step _ _ _ _ _ _ Hinv Hgoal Hns) as [d' Hinv'].
      by eapply IH.
Qed.

(** Whatever the budget, the search runs out of it or ends with a verdict. *)
Lemma bfs_any fuel :
  breadth_first_search fuel init = OutOfFuel ∨
  bfs_verdict init (breadth_first_search fuel init).
Proof. apply (bfs_loop_end fuel _ _ _ _ bfs_inv_initial). Qed.

Section termination.
(** [V] lists the keys that the search can ever hold. *)
Variable V : list K.
Hypothesis V_bound : ∀ d closed explored queue,
  bfs_inv init U d closed explored queue → ∀ x, x ∈ closed ++ queue → key x ∈ V.

(** The dequeued and queued nodes are no more than the keys in [V]. *)
Lemma inv_seen_bound d closed explored queue :
  bfs_inv init U d closed explored queue →
  (length closed + length queue ≤ length V)%nat.
Proof.
  intros Hinv. rewrite <- length_app, <- (length_fmap key).
  apply submseteq_length, NoDup_submseteq; [apply (inv_nodup _ _ _ _ _ _ Hinv)|].
  intros k (x & -> & Hx)%list_elem_of_fmap. by eapply V_bound.
Qed.

(** From any state of the loop that satisfies the invariant, the loop ends
    within the iterations that [V] leaves. *)
Lemma bfs_loop_total fuel : ∀ d closed explored queue,
  bfs_inv init U d closed explored queue →
  (length V - length closed + length V + 2 ≤ fuel)%nat →
  bfs_loop fuel explored queue ≠ OutOfFuel.
Proof.
  induction fuel as [|fuel IH]; intros d closed explored queue Hinv Hfuel; [lia|].
  pose proof (inv_seen_bound _ _ _ _ Hinv) as Hsize.
  destruct queue as [|h queue]; simpl; [done|].
  assert (Hh : h ∈ closed ++ h :: queue) by (apply elem_of_app; right; by left).
  simpl in Hsize. destruct (is_goal h) eqn:Hgoal.
  - destruct (inv_chain _ _ _ _ _ _ Hinv h Hh) as (l & Hc & Hlen & Hr).
    pose proof (inv_depth _ _ _ _ _ _ Hinv h Hh) as Hd.
    rewrite (unravel_bfs_chain explored h l fuel Hc) by lia.
    by destruct (sentinel_lookup explored).
  - destruct (U_neighbors h) as (ns & Hns & _);
      [by apply (inv_univ _ _ _ _ _ _ Hinv)|].
    rewrite Hns, outcome_bind_Return.
    destruct (bfs_inv_step _ _ _ _ _ _ Hinv Hgoal Hns) as [d' Hinv'].
    eapply IH; [done|]. rewrite length_app. simpl. lia.
Qed.

(** With enough fuel the search ends, and its outcome is right. *)
Lemma bfs_total fuel :
  (2 * length V + 2 ≤ fuel)%nat →
  bfs_verdict init (breadth_first_search fuel init).
Proof.
  intros Hfuel. destruct (bfs_any fuel) as [Hout | Hv]; [|done].
  exfalso. revert Hout. unfold breadth_first_search.
  eapply bfs_loop_total; [apply bfs_inv_initial|]. simpl. lia.
Qed.

(** No key is enqueued twice, and every enqueued key is in [V]. *)
Lemma enqueued_distinct fuel : ∀ d closed explored queue,
  bfs_inv init U d closed explored queue →
  NoDup (key <$> (closed ++ queue ++ enqueued fuel explored queue)) ∧
  ∀ x, x ∈ closed ++ queue ++ enqueued fuel explored queue → key x ∈ V.
Proof.
  induction fuel as [|fuel IH]; intros d closed explored queue Hinv.
  { simpl. rewrite app_nil_r. split; [apply (inv_nodup _ _ _ _ _ _ Hinv)|].
    by eapply V_bound. }
  assert (Hbase : NoDup (key <$> (closed ++ queue ++ [])) ∧
            ∀ x, x ∈ closed ++ queue ++ [] → key x ∈ V).
  { rewrite app_nil_r. split; [apply (inv_nodup _ _ _ _ _ _ Hinv)|].
    by eapply V_bound. }
  destruct queue as [|h queue]; simpl; [done|].
  destruct (is_goal h) eqn:Hgoal; [done|].
  destruct (U_neighbors h) as (ns & Hns & _).
  { apply (inv_univ _ _ _ _ _ _ Hinv), elem_of_app. right. by left. }
  rewrite Hns.
  destruct (bfs_inv_step _ _ _ _ _ _ Hinv Hgoal Hns) as [d' Hinv'].
  destruct (foldl_visit h ns explored queue) as (news & Hq & _).
  specialize (IH _ _ _ _ Hinv'). revert IH. rewrite Hq, drop_app_length.
  by rewrite <- !app_assoc.
Qed.

End termination.

(** Every sequence of at most [n] moves ends in [ball init n]. *)
Lemma ball_init n : init ∈ ball init n.
Proof. induction n; simpl; [by left | apply elem_of_app; by left]. Qed.

Lemma route_ball p z :
  route init p z → ∀ n, (length p ≤ S n)%nat → z ∈ ball init n.
Proof.
  induction 1 as [|p y z Hr IH Hs]; intros n Hn; [apply ball_init|].
  rewrite length_app in Hn. simpl in Hn.
  destruct n as [|n]; [apply route_nonempty in Hr; lia|].
  simpl. apply elem_of_app. right. apply list_elem_of_bind.
  exists y. split; [|apply IH; lia].
  destruct Hs as (l & Hl & Hz). unfold successors. by rewrite Hl.
Qed.

(** When a goal can be reached the search never looks farther than one move
    beyond it, so it ends, whatever the size of the universe. *)
Lemma bfs_total_solvable p g :
  route init p g → is_goal g = true →
  ∃ fuel0, ∀ fuel, (fuel0 ≤ fuel)%nat →
    bfs_verdict init (breadth_first_search fuel init).
Proof.
  intros Hr Hg. exists (2 * length (key <$> ball init (length p)) + 2)%nat.
  intros fuel Hfuel. apply (bfs_total (key <$> ball init (length p))); [|done].
  intros d closed explored queue Hinv x Hx. apply list_elem_of_fmap_2.
  destruct (inv_chain _ _ _ _ _ _ Hinv x Hx) as (l & _ & Hlen & Hrx).
  apply (route_ball _ _ Hrx). rewrite length_reverse, Hlen.
  destruct (inv_frontier _ _ _ _ _ _ Hinv Hr) as [[Hz _] | (y & Hy & Hdy)].
  { apply (inv_nongoal _ _ _ _ _ _ Hinv) in Hz. congruence. }
  destruct queue as [|h queue]; [by apply elem_of_nil in Hy|].
  destruct (inv_head_least _ _ _ _ _ Hinv) as [Hleast Hcl].
  pose proof (Hleast y Hy) as Hyh.
  apply elem_of_app in Hx as [Hx|Hx].
  - specialize (Hcl x Hx). lia.
  - specialize (Hleast x Hx). lia.
Qed.

End invariant.

End search_theory.

Section follows.
Context {node K : Type} `{Countable K} {searchable : Searchable node K}.
Context `{EqDecision node}.

(** A sequence that [follows] accepts is a sequence of moves. *)
Lemma follows_route (x0 : node) (rest : list node) : ∀ p x z,
  route x0 p x → follows x rest = true → last (x :: rest) = Some z →
  route x0 (p ++ rest) z.
Proof.
  induction rest as [|y rest IH]; intros p x z Hr Hf Hlast.
  - rewrite app_nil_r. simpl in Hlast. by simplify_eq.
  - simpl in Hf. destruct (get_neighbors x) as [l| |] eqn:Hl; [|done..].
    apply andb_prop in Hf as [Hy%bool_decide_eq_true Hf].
    rewrite (assoc_L (++) p [y] rest : p ++ y :: rest = (p ++ [y]) ++ rest).
    apply (IH _ y); [|done|done].
    eapply route_move; [done|]. by exists l.
Qed.

Lemma follows_route_start (x0 : node) (rest : list node) (z : node) :
  follows x0 rest = true → last (x0 :: rest) = Some z →
  route x0 (x0 :: rest) z.
Proof. intros. by apply (follows_route x0 rest [x0] x0 z (route_start x0)). Qed.

End follows.

(** ** The puzzle as a search problem *)

Section puzzle.
Context {order : SetOrder}.

(** A legal move of the puzzle is a [move] on the values, with a capacity
    for every bucket. *)
Lemma State_step (s t : State) :
  step s t ↔
  (length (values s) ≤ length (constraints s))%nat ∧
  move s (values t) ∧ t = with_values s (values t).
Proof.
  unfold step. simpl. split.
  - intros (l & Hl & Ht). pose proof (get_neighbors_raises s l Hl) as Hlen.
    destruct (get_neighbors_moves s Hlen) as (ns & Hns & _ & Hin).
    rewrite Hns in Hl. injection Hl as <-.
    apply list_elem_of_fmap in Ht as (n & -> & Hn). simpl.
    split_and!; [done | by apply Hin | done].
  - intros (Hlen & Hmove & Ht).
    destruct (get_neighbors_moves s Hlen) as (ns & Hns & _ & Hin).
    eexists. split; [done|]. rewrite Ht.
    by apply list_elem_of_fmap_2, Hin.
Qed.

(** The states of one puzzle, and the valid ones among them, are closed
    under [get_neighbors] and told apart by their values. *)
Lemma puzzle_neighbors (s0 x : State) :
  (length (values s0) ≤ length (constraints s0))%nat → same_puzzle s0 x →
  ∃ l, get_neighbors x = Return l ∧ ∀ y, y ∈ l → same_puzzle s0 y.
Proof.
  intros Hlen (Hc & Ht & Hr & Hv). simpl.
  destruct (get_neighbors_moves x) as (ns & Hns & _ & Hin).
  { by rewrite Hc, Hv. }
  eexists. split; [done|].
  intros y (n & -> & Hn%Hin%move_length)%list_elem_of_fmap.
  unfold same_puzzle. simpl. by rewrite Hn.
Qed.

Lemma puzzle_key_inj (s0 x y : State) :
  same_puzzle s0 x → same_puzzle s0 y → key x = key y → x = y.
Proof.
  destruct x, y. unfold same_puzzle. simpl.
  intros (-> & -> & -> & _) (-> & -> & -> & _) ->. done.
Qed.

Lemma valid_neighbors (s0 x : State) :
  same_puzzle s0 x ∧ valid x →
  ∃ l, get_neighbors x = Return l ∧ ∀ y, y ∈ l → same_puzzle s0 y ∧ valid y.
Proof.
  intros [(Hc & Ht & Hr & Hv) Hvalid]. simpl.
  destruct (get_neighbors_moves x) as (ns & Hns & _ & Hin).
  { by rewrite (valid_length x Hvalid). }
  eexists. split; [done|].
  intros y (n & -> & Hn%Hin)%list_elem_of_fmap. split.
  - unfold same_puzzle. simpl. by rewrite (move_length x n Hn).
  - by apply move_valid.
Qed.

(** A state without buckets has no neighbour and is no goal: its search is
    over after one iteration. *)
Lemma search_no_buckets (s0 : State) (fuel : nat) :
  values s0 = [] → (2 ≤ fuel)%nat → breadth_first_search fuel s0 = Return [].
Proof.
  intros Hv Hfuel. destruct fuel as [|[|fuel]]; [lia..|].
  unfold breadth_first_search. simpl.
  unfold State_is_goal, State_get_neighbors. rewrite Hv. simpl.
  by rewrite (proj1 (Permutation_nil_r _) (iter_order_perm [])).
Qed.

(** A start with fewer capacities than buckets that is not a goal makes the
    search raise: the capacity invariant is needed for the search to
    return. *)
Lemma search_missing_capacity (s0 : State) (fuel : nat) :
  (length (constraints s0) < length (values s0))%nat →
  State_is_goal s0 = false → (1 ≤ fuel)%nat →
  breadth_first_search fuel s0
  = Raise (IndexError "tuple index out of range").
Proof.
  intros Hlen Hgoal Hfuel. destruct fuel as [|fuel]; [lia|].
  unfold breadth_first_search. simpl. rewrite Hgoal.
  destruct (get_neighbors_outcome s0) as [[l Hl] | ->]; [|done].
  apply get_neighbors_raises in Hl. lia.
Qed.

(** The states that hash like the sentinel. *)
Lemma State_eq_sentinel_None (k : list Z) :
  State_eq_sentinel k = None ↔ tuple_hash k ≠ tuple_hash [].
Proof.
  unfold State_eq_sentinel. case_bool_decide as Hhash; split;
    [done | by intros [] | done..].
Qed.

Lemma State_eq_sentinel_Some (k : list Z) (e : exn) :
  State_eq_sentinel k = Some e ↔
  e = AttributeError "'tuple' object has no attribute 'values'" ∧
  tuple_hash k = tuple_hash [].
Proof.
  unfold State_eq_sentinel. case_bool_decide as Hhash; split.
  - by intros [= <-].
  - by intros [-> _].
  - done.
  - by intros [_ ?].
Qed.

(** On a valid start the search ends within a number of iterations fixed by
    the capacities. *)
Lemma search_valid (s0 : State) :
  valid s0 →
  ∃ o, bfs_verdict s0 o ∧
    ∀ fuel, (2 * state_space (constraints s0) + 2 ≤ fuel)%nat →
      breadth_first_search fuel s0 = o.
Proof.
  intros Hvalid.
  assert (Hv : bfs_verdict s0
            (breadth_first_search (2 * state_space (constraints s0) + 2) s0)).
  { apply (bfs_total s0 (λ x, same_puzzle s0 x ∧ valid x))
      with (V := all_fills (constraints s0)).
    - done.
    - apply valid_neighbors.
    - intros x y [Hx _] [Hy _]. by apply (puzzle_key_inj s0).
    - intros d closed explored queue Hinv x Hx.
      destruct (inv_univ _ _ _ _ _ _ Hinv x Hx) as [(Hc & _) Hvx].
      simpl. rewrite <- Hc. by apply elem_of_all_fills.
    - by rewrite length_all_fills. }
  eexists. split; [exact Hv|]. intros fuel Hfuel.
  eapply breadth_first_search_mono_outcome;
    [done | by apply bfs_verdict_not_out in Hv | done].
Qed.

(** On a solvable start the search ends, valid or not. *)
Lemma search_solvable (s0 : State) p g :
  route s0 p g → is_goal g = true →
  ∃ o fuel0, bfs_verdict s0 o ∧
    ∀ fuel, (fuel0 ≤ fuel)%nat → breadth_first_search fuel s0 = o.
Proof.
  intros Hr Hg. destruct (is_goal s0) eqn:Hg0.
  { eexists _, 3%nat. split; [by apply bfs_verdict_goal_initial|].
    intros fuel Hfuel. by apply bfs_goal_initial. }
  destruct (route_first_step _ _ _ Hr) as [-> | (y & (Hlen & _)%State_step)];
    [congruence|].
  destruct (bfs_total_solvable s0 (same_puzzle s0)) with (p := p) (g := g)
    as (fuel0 & Hret); try done.
  - intros x Hx. by apply puzzle_neighbors.
  - apply puzzle_key_inj.
  - exists (breadth_first_search fuel0 s0), fuel0.
    pose proof (Hret fuel0 (le_n _)) as Hv. split; [done|].
    intros fuel Hfuel.
    eapply breadth_first_search_mono_outcome;
      [done | by apply bfs_verdict_not_out in Hv | done].
Qed.

(** Whatever the budget, the search from a start with a capacity for every
    bucket runs out of it or ends with a verdict. *)
Lemma search_any (s0 : State) (fuel : nat) :
  (length (values s0) ≤ length (constraints s0))%nat →
  breadth_first_search fuel s0 = OutOfFuel ∨
  bfs_verdict s0 (breadth_first_search fuel s0).
Proof.
  intros Hlen. apply (bfs_any s0 (same_puzzle s0)).
  - done.
  - intros x Hx. by apply puzzle_neighbors.
  - apply puzzle_key_inj.
Qed.

(** When no state that the moves reach hashes like the sentinel, the search
    returns. *)
Lemma search_valid_clear (s0 : State) :
  valid s0 →
  (∀ p z, route s0 p z → tuple_hash (values z) ≠ tuple_hash []) →
  ∃ res, bfs_post s0 res ∧
    ∀ fuel, (2 * state_space (constraints s0) + 2 ≤ fuel)%nat →
      breadth_first_search fuel s0 = Return res.
Proof.
  intros Hvalid Hclear. destruct (search_valid s0 Hvalid) as (o & Hv & Hret).
  destruct (bfs_verdict_clear s0 o Hv) as (res & -> & Hpost).
  { intros p z Hp. apply State_eq_sentinel_None. by apply (Hclear p z). }
  by exists res.
Qed.

Lemma search_solvable_clear (s0 : State) p g :
  route s0 p g → is_goal g = true →
  (∀ p z, route s0 p z → tuple_hash (values z) ≠ tuple_hash []) →
  ∃ res fuel0, bfs_post s0 res ∧
    ∀ fuel, (fuel0 ≤ fuel)%nat → breadth_first_search fuel s0 = Return res.
Proof.
  intros Hr Hg Hclear.
  destruct (search_solvable s0 p g Hr Hg) as (o & fuel0 & Hv & Hret).
  destruct (bfs_verdict_clear s0 o Hv) as (res & -> & Hpost).
  { intros p' z Hp. apply State_eq_sentinel_None. by apply (Hclear p' z). }
  by exists res, fuel0.
Qed.

End puzzle.

(** The legal moves do not depend on the order in which sets iterate. *)
Lemma step_order (o1 o2 : SetOrder) (s t : State) :
  step (searchable := @State_Searchable o1) s t →
  step (searchable := @State_Searchable o2) s t.
Proof. intros Hs. apply State_step. by apply (State_step (order := o1)). Qed.

Lemma route_order (o1 o2 : SetOrder) (s0 : State) p z :
  route (searchable := @State_Searchable o1) s0 p z →
  route (searchable := @State_Searchable o2) s0 p z.
Proof.
  induction 1 as [|p y z Hr IH Hs]; [apply route_start|].
  eapply route_move; [exact IH | exact (step_order o1 o2 y z Hs)].
Qed.

(** Every position of a sequence of moves from a valid start is valid and
    belongs to the same puzzle. *)
Lemma route_valid {order : SetOrder} (s0 : State) p z :
  valid s0 → route s0 p z → same_puzzle s0 z ∧ valid z.
Proof.
  intros Hvalid. induction 1 as [|p y z Hr [Hy Hvy] Hs]; [done|].
  destruct (valid_neighbors s0 y) as (l & Hl & Hin); [done|].
  destruct Hs as (l' & Hl' & Hz). apply Hin. congruence.
Qed.

(** The states that moves reach from a valid start hash like the sentinel
    only if a tuple within the capacities does. *)
Lemma valid_clear {order : SetOrder} (s0 : State) :
  valid s0 →
  Forall (λ k, tuple_hash k ≠ tuple_hash []) (all_fills (constraints s0)) →
  ∀ p z, route s0 p z → tuple_hash (values z) ≠ tuple_hash [].
Proof.
  intros Hvalid Hall p z Hr.
  destruct (route_valid s0 p z Hvalid Hr) as [(Hc & _) Hz].
  apply (proj1 (Forall_forall _ _) Hall). rewrite <- Hc.
  by apply elem_of_all_fills.
Qed.

(** None of the 24 tuples within the capacities (5, 3) hashes like the
    sentinel. *)
Lemma die_hard_clear {order : SetOrder} p z :
  route die_hard p z → tuple_hash (values z) ≠ tuple_hash [].
Proof.
  apply valid_clear; [repeat constructor; simpl; lia|].
  refine (bool_decide_unpack _ _). vm_compute. exact I.
Qed.

(** [die_hard_moves] are legal moves from [die_hard] to a goal. *)
Lemma die_hard_route {order : SetOrder} :
  route die_hard (die_hard :: die_hard_moves) (with_values die_hard [4; 3]).
Proof.
  apply (route_order insertion_order order).
  by apply (follows_route_start (searchable := @State_Searchable insertion_order)).
Qed.

(** The only sequence of six moves from [die_hard] to a goal. *)
Lemma die_hard_route_unique {order : SetOrder} (q : list State) (h : State) :
  route die_hard q h → is_goal h = true → length q = 7%nat →
  q = die_hard :: die_hard_moves.
Proof.
  intros Hq Hh Hlen. apply (route_order order insertion_order) in Hq.
  pose proof (route_last _ _ _ Hq) as Hlast.
  apply (route_walks (searchable := @State_Searchable insertion_order) 6) in Hq;
    [|done].
  assert (Hin : q ∈ filter (λ w, from_option State_is_goal false (last w) = true)
                       (walks (searchable := @State_Searchable insertion_order)
                          6 die_hard)).
  { apply list_elem_of_filter. split; [|done]. by rewrite Hlast. }
  assert (Heq : filter (λ w, from_option State_is_goal false (last w) = true)
                  (walks (searchable := @State_Searchable insertion_order)
                     6 die_hard)
                = [die_hard :: die_hard_moves]) by (vm_compute; reflexivity).
  rewrite Heq in Hin. by apply list_elem_of_singleton in Hin.
Qed.

(** With capacities (2, 2) no bucket ever holds 3. *)
Lemma out_of_reach_unsolvable {order : SetOrder} (p : list State) (g : State) :
  route out_of_reach p g → is_goal g = false.
Proof.
  intros Hr.
  assert (Hvalid : valid out_of_reach) by (repeat constructor; simpl; lia).
  destruct (route_valid out_of_reach p g Hvalid Hr) as [(Hc & Ht & _) Hg].
  simpl. unfold State_is_goal. apply not_true_is_false.
  intros (v & Hv%list_elem_of_In & ->%bool_decide_eq_true)%existsb_exists.
  apply list_elem_of_lookup in Hv as [i Hi].
  destruct (Forall2_lookup_l _ _ _ _ _ Hg Hi) as (c & Hci & Hle).
  rewrite Hc in Hci. rewrite Ht in Hle. simpl in Hci, Hle.
  destruct i as [|[|i]]; simplify_eq/=; lia.
Qed.

(** A state that hashes like the sentinel, no farther from the start than
    the nearest goal, makes the search raise. *)
Lemma search_collision {order : SetOrder} (s0 : State) p z q0 g0 :
  route s0 p z → tuple_hash (values z) = tuple_hash [] →
  route s0 q0 g0 → is_goal g0 = true →
  (∀ q g, route s0 q g → is_goal g = true → (length p ≤ length q)%nat) →
  ∃ fuel0, ∀ fuel, (fuel0 ≤ fuel)%nat →
    breadth_first_search fuel s0
      = Raise (AttributeError "'tuple' object has no attribute 'values'").
Proof.
  intros Hp Hz Hq0 Hg0 Hnear.
  destruct (search_solvable s0 q0 g0 Hq0 Hg0) as (o & fuel0 & Hv & Hret).
  destruct (bfs_verdict_collision s0 o p z q0 g0 Hv Hp)
    as (e & p' & z' & -> & _ & He); [|done..|].
  { eexists. by apply State_eq_sentinel_Some. }
  apply State_eq_sentinel_Some in He as [-> _]. by exists fuel0.
Qed.

(** [hash_collision]: one fill reaches the goal (5, 0), the other one the
    tuple (0, 268219835420928158), which hashes like the sentinel. *)
Lemma hash_collision_goal {order : SetOrder} :
  route hash_collision [hash_collision; with_values hash_collision [5; 0]]
    (with_values hash_collision [5; 0]).
Proof.
  apply (route_order insertion_order order).
  apply (follows_route_start (searchable := @State_Searchable insertion_order));
    [vm_compute; reflexivity | reflexivity].
Qed.

Lemma hash_collision_fill {order : SetOrder} :
  route hash_collision
    [hash_collision; with_values hash_collision [0; 268219835420928158]]
    (with_values hash_collision [0; 268219835420928158]).
Proof.
  apply (route_order insertion_order order).
  apply (follows_route_start (searchable := @State_Searchable insertion_order));
    [vm_compute; reflexivity | reflexivity].
Qed.

Lemma hash_collision_near {order : SetOrder} (q : list State) (g : State) :
  route hash_collision q g → is_goal g = true → (2 ≤ length q)%nat.
Proof.
  intros Hq Hg. pose proof (route_nonempty _ _ _ Hq) as Hlen.
  destruct (decide (length q = 1%nat)) as [Hone|]; [|lia].
  destruct (route_single hash_collision q g Hq Hone) as [_ ->]. done.
Qed.

Lemma hash_collision_raises {order : SetOrder} :
  ∃ fuel0, ∀ fuel, (fuel0 ≤ fuel)%nat →
    breadth_first_search fuel hash_collision
      = Raise (AttributeError "'tuple' object has no attribute 'values'").
Proof.
  apply (search_collision hash_collision
           [hash_collision; with_values hash_collision [0; 268219835420928158]]
           (with_values hash_collision [0; 268219835420928158])
           [hash_collision; with_values hash_collision [5; 0]]
           (with_values hash_collision [5; 0])).
  - apply hash_collision_fill.
  - vm_compute. reflexivity.
  - apply hash_collision_goal.
  - reflexivity.
  - apply hash_collision_near.
Qed.

(** ** The loop of argmax *)

(** The loop of [argmax] keeps the first element that attains the greatest
    value seen so far. *)
Lemma argmax_loop {A : Type} (function : A → Z) (l : list A) :
  ∀ l1 a l2,
    (∀ x, x ∈ l1 → function x < function a) →
    (∀ x, x ∈ l2 → function x ≤ function a) →
    ∃ l1' a' l2',
      foldl (argmax_step function) (a, function a) l = (a', function a') ∧
      (l1 ++ a :: l2) ++ l = l1' ++ a' :: l2' ∧
      (∀ x, x ∈ l1' → function x < function a') ∧
      (∀ x, x ∈ l2' → function x ≤ function a').
Proof.
  induction l as [|i l IH]; intros l1 a l2 H1 H2; simpl.
  - exists l1, a, l2. by rewrite app_nil_r.
  - unfold argmax_step at 2. simpl.
    destruct (bool_decide_reflect (function i > function a)) as [Hgt|Hle].
    + destruct (IH (l1 ++ a :: l2) i []) as (l1' & a' & l2' & Hf & Heq & H1' & H2').
      * intros x [Hx | [-> | Hx]%elem_of_cons]%elem_of_app.
        -- specialize (H1 x Hx). lia.
        -- lia.
        -- specialize (H2 x Hx). lia.
      * by intros x ?%elem_of_nil.
      * exists l1', a', l2'. split_and!; [done | | done..].
        rewrite <- Heq. by simplify_list_eq.
    + destruct (IH l1 a (l2 ++ [i])) as (l1' & a' & l2' & Hf & Heq & H1' & H2').
      * done.
      * intros x [Hx | ->%list_elem_of_singleton]%elem_of_app; [by apply H2 | lia].
      * exists l1', a', l2'. split_and!; [done | | done..].
        rewrite <- Heq. by simplify_list_eq.
Qed.

(** * The claims *)

(** C1 fails on the code at [hash_collision], a valid state one fill away
    from a goal.  The other fill makes the tuple (0, 268219835420928158),
    which hashes like the empty tuple; when [unravel_bfs] asks the dictionary
    for the empty tuple, the dictionary compares it with that state,
    [State.__eq__] reads [other.values], and [breadth_first_search] raises
    instead of returning the shortest sequence of moves.  It does so for
    every iteration order of the neighbour sets, and with five iterations in
    insertion order. *)
Theorem hash_collision_loses_route :
  valid hash_collision ∧
  tuple_hash [0; 268219835420928158] = tuple_hash [] ∧
  breadth_first_search (searchable := @State_Searchable insertion_order)
    5 hash_collision
      = Raise (AttributeError "'tuple' object has no attribute 'values'") ∧
  ∀ order : SetOrder,
    route hash_collision [hash_collision; with_values hash_collision [5; 0]]
      (with_values hash_collision [5; 0]) ∧
    is_goal (with_values hash_collision [5; 0]) = true ∧
    (∀ fuel res, breadth_first_search fuel hash_collision ≠ Return res) ∧
    ∃ fuel0, ∀ fuel, (fuel0 ≤ fuel)%nat →
      breadth_first_search fuel hash_collision
        = Raise (AttributeError "'tuple' object has no attribute 'values'").
Proof.
  split_and!.
  - repeat constructor; simpl; lia.
  - vm_compute. reflexivity.
  - vm_compute. reflexivity.
  - intros order. destruct (hash_collision_raises (order := order)) as [fuel0 Hraise].
    split_and!; [apply hash_collision_goal | reflexivity | |by exists fuel0].
    apply (raise_never_returns _ fuel0 _ (Hraise fuel0 (le_n _))).
Qed.

(** C2, as stated, fails: on a start that is already a goal the returned
    list is never the single state; it is the sentinel and then the state. *)
Lemma goal_at_start_is_not_alone :
  State_is_goal solved_at_start = true ∧
  (∀ (order : SetOrder) (fuel : nat),
     breadth_first_search fuel solved_at_start ≠ Return [Node solved_at_start]) ∧
  (∀ order : SetOrder,
     breadth_first_search 3 solved_at_start
     = Return [Sentinel; Node solved_at_start]).
Proof.
  assert (Hhash : State_eq_sentinel (values solved_at_start) = None)
    by (vm_compute; reflexivity).
  assert (Hret : ∀ (order : SetOrder) (fuel : nat), (3 ≤ fuel)%nat →
            breadth_first_search fuel solved_at_start
            = Return [Sentinel; Node solved_at_start]).
  { intros order fuel Hfuel. rewrite bfs_goal_initial by done.
    change (eq_sentinel (key solved_at_start))
      with (State_eq_sentinel (values solved_at_start)).
    by rewrite Hhash. }
  split_and!; [done | | intros; by apply Hret].
  intros order fuel. destruct (decide (3 ≤ fuel)%nat) as [Hfuel|Hfuel].
  - by rewrite Hret.
  - destruct fuel as [|[|[|fuel]]]; [done..|lia].
Qed.

(** C2, amended: for every initial state that already satisfies [is_goal]
    and whose values do not hash like the empty tuple,
    [breadth_first_search] returns a two-element list: the empty-tuple
    sentinel, then exactly that state. *)
Theorem bfs_goal_at_start {order : SetOrder} (initial_state : State) (fuel : nat) :
  State_is_goal initial_state = true →
  tuple_hash (values initial_state) ≠ tuple_hash [] → (3 ≤ fuel)%nat →
  breadth_first_search fuel initial_state
  = Return [Sentinel; Node initial_state].
Proof.
  intros Hgoal Hhash Hfuel. rewrite bfs_goal_initial by done. simpl.
  by rewrite (proj2 (State_eq_sentinel_None _) Hhash).
Qed.

(** C3, as stated, fails: with the second bucket full and the first one not
    empty, pouring the first into the second moves nothing, and the
    configuration itself is returned among its neighbours, whatever the
    iteration order of the set. *)
Lemma zero_pour_returns_self :
  valid second_full ∧
  ∀ order : SetOrder,
    ∃ l, State_get_neighbors second_full = Return l ∧ second_full ∈ l.
Proof.
  split; [repeat constructor; simpl; lia|]. intros order.
  destruct (get_neighbors_moves second_full) as (ns & Hns & _ & Hin);
    [simpl; lia|].
  eexists. split; [done|].
  change second_full with (with_values second_full [2; 3]).
  apply list_elem_of_fmap_2, Hin.
  exact (move_pour second_full 0%nat 1%nat 2 3 3 eq_refl eq_refl eq_refl
           ltac:(done) ltac:(done) ltac:(done)).
Qed.

(** C3, amended: for every valid configuration, emptying and filling never
    reproduce the configuration, and the list returned by [get_neighbors]
    contains a state with the values of the configuration itself exactly
    when some bucket [i] is not empty and another bucket [j] is full: the
    pour from [i] into [j] moves no water and is emitted all the same. *)
Theorem neighbors_contain_self_iff_zero_pour {order : SetOrder} (self : State) :
  valid self →
  ∃ l, State_get_neighbors self = Return l ∧
    ((∃ n, n ∈ l ∧ values n = values self) ↔
     (∃ i j val_i c, i ≠ j ∧ values self !! i = Some val_i ∧ val_i ≠ 0 ∧
        values self !! j = Some c ∧ constraints self !! j = Some c)) ∧
    (∀ i val, values self !! i = Some val → val ≠ 0 →
       State_replace (values self) i 0 ≠ values self) ∧
    (∀ i val c, values self !! i = Some val → constraints self !! i = Some c →
       val ≠ c → State_replace (values self) i c ≠ values self).
Proof.
  intros Hvalid.
  destruct (get_neighbors_moves self) as (ns & Hns & _ & Hin).
  { by rewrite (valid_length self Hvalid). }
  exists (with_values self <$> ns). split; [done|].
  assert (Hat : ∀ i v, values self !! i = Some v → 0 ≤ v).
  { intros i v Hv.
    destruct (Forall2_lookup_l _ _ _ _ _ Hvalid Hv) as (c & _ & ?). lia. }
  split_and!.
  - split.
    + intros (n & (vs & -> & Hvs%Hin)%list_elem_of_fmap & Heq). simpl in Heq.
      subst vs. apply move_inv in Hvs
        as [(i & v & Hi & Hv & Heq) | [(i & v & c & Hi & Hc & Hv & _ & Heq)
        | (i & j & vi & vj & c & Hi & Hj & Hc & Hv & Hij & Hsp & Heq)]].
      * exfalso. apply (f_equal (λ l, l !! i)) in Heq.
        rewrite list_lookup_insert_eq in Heq by (by eapply lookup_lt_Some).
        congruence.
      * exfalso. apply (f_equal (λ l, l !! i)) in Heq.
        rewrite list_lookup_insert_eq in Heq by (by eapply lookup_lt_Some).
        congruence.
      * exists i, j, vi, c. pose proof (Hat i vi Hi).
        apply (f_equal (λ l, l !! j)) in Heq.
        rewrite list_lookup_insert_ne in Heq by done.
        rewrite list_lookup_insert_eq in Heq by (by eapply lookup_lt_Some).
        assert (vj = c) as -> by (rewrite Hj in Heq; injection Heq; lia).
        done.
    + intros (i & j & vi & c & Hij & Hi & Hv & Hj & Hc).
      exists (with_values self (values self)). split; [|done].
      apply list_elem_of_fmap_2, Hin. pose proof (Hat i vi Hi).
      pose proof (move_pour self i j vi c c Hi Hj Hc Hv Hij) as Hmove.
      replace (Z.min vi (c - c)) with 0 in Hmove by lia.
      rewrite Z.add_0_r, Z.sub_0_r in Hmove.
      rewrite (State_replace_same _ j c Hj), (State_replace_same _ i vi Hi)
        in Hmove.
      apply Hmove. lia.
  - intros i v Hi Hv. by apply (State_replace_changed _ _ _ v).
  - intros i v c Hi Hc Hv. by apply (State_replace_changed _ _ _ v).
Qed.

(** C4: for every configuration that satisfies the capacity invariant,
    [get_neighbors] returns, and every state it returns satisfies the
    capacity invariant for the same capacities.  (Positive capacities are
    not needed for this.) *)
Theorem neighbors_keep_capacity_invariant {order : SetOrder} (self : State) :
  valid self →
  ∃ l, State_get_neighbors self = Return l ∧
       ∀ n, n ∈ l → valid n ∧ constraints n = constraints self.
Proof.
  intros Hvalid.
  destruct (get_neighbors_moves self) as (ns & Hns & _ & Hin).
  { by rewrite (valid_length self Hvalid). }
  exists (with_values self <$> ns). split; [done|].
  intros n (vs & -> & Hvs%Hin)%list_elem_of_fmap.
  split; [by apply move_valid | done].
Qed.

(** C5: from [(0, 0)] with capacities [(5, 3)], target 4 and refills
    allowed, [breadth_first_search] returns, behind the sentinel, the
    solution (0,0), (5,0), (2,3), (2,0), (0,2), (5,2), (4,3): 7 states (6
    moves) whose final state has a bucket holding 4; and it does so whatever
    the iteration order of the neighbour sets. *)
Theorem die_hard_solution {order : SetOrder} (fuel : nat) :
  (50 ≤ fuel)%nat →
  breadth_first_search fuel die_hard
  = Return (Sentinel :: (Node <$> die_hard :: die_hard_moves)) ∧
  length (die_hard :: die_hard_moves) = 7%nat ∧
  route die_hard (die_hard :: die_hard_moves) (with_values die_hard [4; 3]) ∧
  last (die_hard :: die_hard_moves) = Some (with_values die_hard [4; 3]) ∧
  4 ∈ values (with_values die_hard [4; 3]).
Proof.
  intros Hfuel.
  assert (Hvalid : valid die_hard) by (repeat constructor; simpl; lia).
  destruct (search_valid_clear die_hard Hvalid die_hard_clear)
    as (res & Hpost & Hres).
  destruct (bfs_post_solvable _ _ _ _ Hpost die_hard_route eq_refl)
    as (q & h & -> & Hq & Hh & Hmin).
  assert (Hlen : length q = 7%nat).
  { apply Nat.le_antisymm; [by apply (Hmin _ _ die_hard_route)|].
    (* the search in insertion order computes a shortest route *)
    destruct (search_valid_clear (order := insertion_order) die_hard Hvalid
                die_hard_clear) as (res' & Hpost' & Hres').
    specialize (Hres' 50%nat ltac:(done)).
    vm_compute in Hres'. injection Hres' as <-.
    destruct (bfs_post_solvable (searchable := @State_Searchable insertion_order)
                _ _ _ _ Hpost' die_hard_route eq_refl)
      as (q' & h' & Heq & _ & _ & Hmin').
    injection Heq as Heq. apply (f_equal length) in Heq.
    rewrite length_fmap in Heq. simpl in Heq. rewrite Heq.
    apply (Hmin' q h); [|done]. by apply (route_order order). }
  rewrite (Hres fuel) by done.
  rewrite (die_hard_route_unique q h Hq Hh Hlen).
  split_and!; [done | done | apply die_hard_route | done |].
  simpl. set_solver.
Qed.

(** C6: for every valid initial state from which no sequence of legal moves
    reaches a goal, [breadth_first_search] returns the empty list (it neither
    raises nor runs on), within a number of iterations fixed by the
    capacities. *)
Theorem unsolvable_returns_empty {order : SetOrder} (initial_state : State)
    (fuel : nat) :
  valid initial_state →
  (∀ p g, route initial_state p g → is_goal g = false) →
  (2 * state_space (constraints initial_state) + 2 ≤ fuel)%nat →
  breadth_first_search fuel initial_state = Return [].
Proof.
  intros Hvalid Hnone Hfuel.
  destruct (search_valid initial_state Hvalid) as (o & Hv & Hret).
  rewrite (Hret fuel Hfuel). by apply (bfs_verdict_unsolvable initial_state).
Qed.

(** C7: for every valid configuration and bucket [i], a neighbour that is
    bucket [i] filled to capacity is returned if and only if [allow_refills]
    is true and [values[i] != constraints[i]].  Without refills no returned
    neighbour is a filled bucket, yet a pour from a non-empty bucket into
    one with room left returns a neighbour in which the latter holds more.
    The guard is what decides: the tuple with bucket [i] at capacity is
    among the returned neighbours exactly when the guard holds, or when the
    bucket is full already and a pour that moves nothing returns the
    configuration itself; and the first loop, which makes the fill moves,
    adds that tuple to the set exactly when the guard holds. *)
Theorem fill_move_iff_refills_allowed {order : SetOrder} (self : State)
    (i : nat) (val c : Z) :
  valid self →
  values self !! i = Some val → constraints self !! i = Some c →
  ∃ l, State_get_neighbors self = Return l ∧
    ((∃ n, n ∈ l ∧ fill_of self i n) ↔ allow_refills self = true ∧ val ≠ c) ∧
    (allow_refills self = false → ∀ n j, n ∈ l → ¬ fill_of self j n) ∧
    (allow_refills self = false →
     ∀ a b val_a val_b c_b, a ≠ b →
       values self !! a = Some val_a → val_a ≠ 0 →
       values self !! b = Some val_b → constraints self !! b = Some c_b →
       val_b < c_b →
       ∃ n w, n ∈ l ∧ values n !! b = Some w ∧ val_b < w) ∧
    ((∃ n, n ∈ l ∧ values n = State_replace (values self) i c) ↔
     (allow_refills self = true ∧ val ≠ c) ∨
     (val = c ∧ ∃ a b val_a c_b, a ≠ b ∧
        values self !! a = Some val_a ∧ val_a ≠ 0 ∧
        values self !! b = Some c_b ∧ constraints self !! b = Some c_b)) ∧
    (∃ s, for_each (enumerate (values self)) (empty_fill_body self) []
          = Return s ∧
          (State_replace (values self) i c ∈ s ↔
           allow_refills self = true ∧ val ≠ c)).
Proof.
  intros Hvalid Hi Hc.
  destruct (get_neighbors_moves self) as (ns & Hns & _ & Hin).
  { by rewrite (valid_length self Hvalid). }
  exists (with_values self <$> ns). split; [done|].
  assert (Hat : ∀ k v ck, values self !! k = Some v →
            constraints self !! k = Some ck → 0 ≤ v ≤ ck).
  { intros k v ck Hv Hck. by eapply (Forall2_lookup_lr _ _ _ _ _ _ Hvalid). }
  assert (Hno : allow_refills self = false →
            ∀ n j, n ∈ with_values self <$> ns → ¬ fill_of self j n).
  { intros Hr n j (vs & -> & Hvs%Hin)%list_elem_of_fmap (cj & Hcj & Heq & Hne).
    simpl in Heq, Hne.
    destruct (values self !! j) as [vj|] eqn:Hj.
    2: { apply lookup_ge_None in Hj. apply lookup_lt_Some in Hcj.
         rewrite (valid_length self Hvalid) in Hj. lia. }
    rewrite (State_replace_lookup _ _ _ vj Hj) in Heq.
    pose proof (Hat j vj cj Hj Hcj) as Hbj.
    apply move_inv in Hvs
      as [(a & v & Ha & Hv & Hvs) | [(a & v & ca & Ha & Hca & Hv & Hr' & Hvs)
      | (a & b & va & vb & cb & Ha & Hb & Hcb & Hv & Hab & Hsp & Hvs)]].
    - rewrite Hvs in Heq. destruct (decide (a = j)) as [->|Haj].
      + apply (f_equal (λ l, l !! j)) in Heq.
        rewrite !list_lookup_insert_eq in Heq by (by eapply lookup_lt_Some).
        simplify_eq. lia.
      + apply (f_equal (λ l, l !! a)) in Heq.
        rewrite list_lookup_insert_eq in Heq by (by eapply lookup_lt_Some).
        rewrite list_lookup_insert_ne in Heq by done. congruence.
    - congruence.
    - pose proof (Hat b vb cb Hb Hcb) as Hbb.
      assert (0 ≤ va) by (destruct (Forall2_lookup_l _ _ _ _ _ Hvalid Ha)
                            as (? & _ & ?); lia).
      rewrite Hvs in Heq.
      assert (Hm : Z.min va (cb - vb) = 0).
      { destruct (decide (a = j)) as [->|Haj].
        - apply (f_equal (λ l, l !! b)) in Heq.
          rewrite list_lookup_insert_ne in Heq by done.
          rewrite list_lookup_insert_eq in Heq by (by eapply lookup_lt_Some).
          rewrite list_lookup_insert_ne in Heq by done.
          rewrite Hb in Heq. injection Heq. lia.
        - apply (f_equal (λ l, l !! a)) in Heq.
          rewrite list_lookup_insert_eq in Heq
            by (rewrite length_insert; by eapply lookup_lt_Some).
          rewrite list_lookup_insert_ne in Heq by done.
          rewrite Ha in Heq. injection Heq. lia. }
      apply Hne. rewrite Hvs, Hm, Z.add_0_r, Z.sub_0_r.
      by rewrite (list_insert_id _ b vb Hb), (list_insert_id _ a va Ha). }
  split_and!.
  - split.
    + intros (n & Hn & Hfill). destruct (allow_refills self) eqn:Hr.
      * split; [done|]. intros ->. destruct Hfill as (c' & Hc' & Heq & Hne).
        assert (c' = c) as -> by congruence.
        rewrite (State_replace_same _ _ _ Hi) in Heq. done.
      * by destruct (Hno eq_refl n i Hn).
    + intros [Hr Hv].
      exists (with_values self (State_replace (values self) i c)). split.
      * apply list_elem_of_fmap_2, Hin. by eapply move_fill.
      * exists c. split_and!; [done | done |]. simpl.
        by apply (State_replace_changed _ _ _ val).
  - done.
  - intros Hr a b va vb cb Hab Ha Hva Hb Hcb Hroom.
    assert (0 < va).
    { destruct (Forall2_lookup_l _ _ _ _ _ Hvalid Ha) as (? & _ & ?). lia. }
    eexists (with_values self _), (vb + Z.min va (cb - vb)). split_and!.
    + apply list_elem_of_fmap_2, Hin.
      apply (move_pour self a b va vb cb); [done..|lia].
    + simpl. rewrite (State_replace_lookup _ b _ vb Hb).
      rewrite (State_replace_lookup _ a _ va)
        by (by rewrite list_lookup_insert_ne).
      rewrite list_lookup_insert_ne by done.
      apply list_lookup_insert_eq. by eapply lookup_lt_Some.
    + lia.
  - rewrite (State_replace_lookup _ _ _ val Hi).
    pose proof (lookup_lt_Some _ _ _ Hi) as Hlt. split.
    + intros (n & (vs & -> & Hvs%Hin)%list_elem_of_fmap & Heq). simpl in Heq.
      apply move_inv in Hvs
        as [(a & v & Ha & Hv & Hvs) | [(a & v & ca & Ha & Hca & Hv & Hr' & Hvs)
        | (a & b & va & vb & cb & Ha & Hb & Hcb & Hv & Hab & Hsp & Hvs)]];
        rewrite Hvs in Heq.
      * exfalso. destruct (decide (a = i)) as [->|Hai].
        -- apply (f_equal (λ l, l !! i)) in Heq.
           rewrite !list_lookup_insert_eq in Heq by done.
           pose proof (Hat i val c Hi Hc). simplify_eq. lia.
        -- apply (f_equal (λ l, l !! a)) in Heq.
           rewrite list_lookup_insert_eq in Heq by (by eapply lookup_lt_Some).
           rewrite list_lookup_insert_ne in Heq by done. congruence.
      * destruct (decide (a = i)) as [->|Hai].
        -- left. split; [done|]. congruence.
        -- exfalso. apply (f_equal (λ l, l !! a)) in Heq.
           rewrite list_lookup_insert_eq in Heq by (by eapply lookup_lt_Some).
           rewrite list_lookup_insert_ne in Heq by done. congruence.
      * right. pose proof (Hat b vb cb Hb Hcb) as Hbb.
        assert (0 ≤ va) by (destruct (Forall2_lookup_l _ _ _ _ _ Hvalid Ha)
                              as (? & _ & ?); lia).
        assert (Hm : Z.min va (cb - vb) = 0).
        { destruct (decide (a = i)) as [->|Hai].
          - apply (f_equal (λ l, l !! b)) in Heq.
            rewrite list_lookup_insert_ne in Heq by done.
            rewrite list_lookup_insert_eq in Heq by (by eapply lookup_lt_Some).
            rewrite list_lookup_insert_ne in Heq by done.
            rewrite Hb in Heq. injection Heq. lia.
          - apply (f_equal (λ l, l !! a)) in Heq.
            rewrite list_lookup_insert_eq in Heq
              by (rewrite length_insert; by eapply lookup_lt_Some).
            rewrite list_lookup_insert_ne in Heq by done.
            rewrite Ha in Heq. injection Heq. lia. }
        rewrite Hm, Z.add_0_r, Z.sub_0_r in Heq.
        rewrite (list_insert_id _ b vb Hb), (list_insert_id _ a va Ha) in Heq.
        apply (f_equal (λ l, l !! i)) in Heq.
        rewrite list_lookup_insert_eq in Heq by done. rewrite Hi in Heq.
        split; [congruence|]. exists a, b, va, cb.
        assert (vb = cb) as -> by lia. done.
    + intros [[Hr Hv] | (-> & a & b & va & cb & Hab & Ha & Hva & Hb & Hcb)].
      * exists (with_values self (State_replace (values self) i c)).
        split; [|simpl; by rewrite (State_replace_lookup _ _ _ val Hi)].
        apply list_elem_of_fmap_2, Hin. by eapply move_fill.
      * exists (with_values self (values self)).
        split; [|simpl; by rewrite list_insert_id].
        apply list_elem_of_fmap_2, Hin.
        assert (0 ≤ va) by (destruct (Forall2_lookup_l _ _ _ _ _ Hvalid Ha)
                              as (? & _ & ?); lia).
        pose proof (move_pour self a b va cb cb Ha Hb Hcb Hva Hab) as Hmove.
        replace (Z.min va (cb - cb)) with 0 in Hmove by lia.
        rewrite Z.add_0_r, Z.sub_0_r in Hmove.
        rewrite (State_replace_same _ b cb Hb), (State_replace_same _ a va Ha)
          in Hmove.
        apply Hmove. lia.
  - destruct (first_loop_moves self) as (s & Hs & _ & Hins).
    { by rewrite (valid_length self Hvalid). }
    exists s. split; [done|]. rewrite Hins.
    rewrite (State_replace_lookup _ _ _ val Hi).
    pose proof (lookup_lt_Some _ _ _ Hi) as Hlt. split.
    + intros [(a & v & Ha & Hv & Heq) | (a & v & ca & Ha & Hca & Hv & Hr & Heq)];
        rewrite (State_replace_lookup _ _ _ v Ha) in Heq.
      * exfalso. destruct (decide (a = i)) as [->|Hai].
        -- apply (f_equal (λ l, l !! i)) in Heq.
           rewrite !list_lookup_insert_eq in Heq by done.
           pose proof (Hat i val c Hi Hc). simplify_eq. lia.
        -- apply (f_equal (λ l, l !! a)) in Heq.
           rewrite list_lookup_insert_eq in Heq by (by eapply lookup_lt_Some).
           rewrite list_lookup_insert_ne in Heq by done. congruence.
      * destruct (decide (a = i)) as [->|Hai].
        -- split; [done|]. congruence.
        -- exfalso. symmetry in Heq. apply (f_equal (λ l, l !! a)) in Heq.
           rewrite list_lookup_insert_eq in Heq by (by eapply lookup_lt_Some).
           rewrite list_lookup_insert_ne in Heq by done. congruence.
    + intros [Hr Hv]. right. exists i, val, c.
      by rewrite (State_replace_lookup _ _ _ val Hi).
Qed.

(** C8: on every valid initial state [breadth_first_search] ends once it is
    given [2 * product (capacity + 1) + 2] loop iterations: it returns a
    list, or it raises the [AttributeError] of a state compared with the
    empty tuple, and the outcome is the same for every larger budget.  Every
    state that legal moves can reach is one of the [product (capacity + 1)]
    valid tuples; and however long the loop runs, the states it has enqueued
    have pairwise distinct values and number at most that product. *)
Theorem bfs_terminates_on_valid {order : SetOrder} (initial_state : State) :
  valid initial_state →
  (∃ o, (∀ fuel,
           (2 * state_space (constraints initial_state) + 2 ≤ fuel)%nat →
           breadth_first_search fuel initial_state = o) ∧
        ((∃ res, o = Return res) ∨
          o = Raise (AttributeError "'tuple' object has no attribute 'values'"))) ∧
  (∀ p z, route initial_state p z →
     values z ∈ all_fills (constraints initial_state)) ∧
  length (all_fills (constraints initial_state))
    = state_space (constraints initial_state) ∧
  (∀ n,
     let queued := initial_state ::
       enqueued n {[ key initial_state := Sentinel ]} [initial_state] in
     NoDup (values <$> queued) ∧
     (length queued ≤ state_space (constraints initial_state))%nat).
Proof.
  intros Hvalid. split_and!.
  - destruct (search_valid initial_state Hvalid) as (o & Hv & Hret).
    exists o. split; [done|].
    destruct Hv as [[-> _] | (q & g & _ & _ & _
                      & [[-> _] | (e & p & z & -> & _ & _ & He)])].
    + left. by eexists.
    + left. by eexists.
    + right. by apply State_eq_sentinel_Some in He as [-> _].
  - intros p z Hr. destruct (route_valid initial_state p z Hvalid Hr)
      as [(Hc & _) Hz].
    rewrite <- Hc. by apply elem_of_all_fills.
  - apply length_all_fills.
  - intros n queued.
    set (U := λ x, same_puzzle initial_state x ∧ valid x).
    assert (HU : U initial_state) by (by split).
    assert (HV : ∀ d closed explored queue,
              bfs_inv initial_state U d closed explored queue →
              ∀ x, x ∈ closed ++ queue →
                   key x ∈ all_fills (constraints initial_state)).
    { intros d closed explored queue Hinv x Hx.
      destruct (inv_univ _ _ _ _ _ _ Hinv x Hx) as [(Hc & _) Hvx].
      simpl. rewrite <- Hc. by apply elem_of_all_fills. }
    destruct (enqueued_distinct initial_state U
                (valid_neighbors initial_state)
                (λ x y Hx Hy,
                   puzzle_key_inj initial_state x y (proj1 Hx) (proj1 Hy))
                (all_fills (constraints initial_state)) HV n _ _ _ _
                (bfs_inv_initial initial_state U HU)) as [Hnd Hin].
    simpl in Hnd, Hin. split; [done|].
    rewrite <- length_all_fills, <- (length_fmap values queued).
    apply submseteq_length, NoDup_submseteq; [done|].
    intros k (x & -> & Hx)%list_elem_of_fmap. by apply Hin.
Qed.

(** C9: [argmax] raises [IndexError('domain is empty:')] on an empty
    collection; on a non-empty one it returns an element of the collection
    whose value no other element exceeds, and among the elements that attain
    that value it is the first. *)
Theorem argmax_first_maximum {A : Type} (function : A → Z) :
  argmax [] function = Raise (IndexError "domain is empty:") ∧
  ∀ d0 domain, ∃ a,
    argmax (d0 :: domain) function = Return a ∧
    a ∈ d0 :: domain ∧
    (∀ x, x ∈ d0 :: domain → function x ≤ function a) ∧
    ∃ before after,
      d0 :: domain = before ++ a :: after ∧
      ∀ x, x ∈ before → function x < function a.
Proof.
  split; [done|]. intros d0 domain. unfold argmax. simpl.
  (* the first pass meets [d0] itself and changes nothing *)
  assert (argmax_step function (d0, function d0) d0 = (d0, function d0)) as ->.
  { unfold argmax_step. simpl. by rewrite bool_decide_eq_false_2 by lia. }
  destruct (argmax_loop function domain [] d0 [])
    as (k1 & a & k2 & Hg & Hdom & K1 & K2); [by intros x ?%elem_of_nil..|].
  simpl in Hdom. exists a. rewrite Hg. simpl. split_and!.
  - done.
  - rewrite Hdom. apply elem_of_app. right. by left.
  - intros x. rewrite Hdom.
    intros [Hx | [-> | Hx]%elem_of_cons]%elem_of_app.
    + specialize (K1 x Hx). lia.
    + lia.
    + by apply K2.
  - by exists k1, k2.
Qed.

(** C10 fails on the code, by the defect that C1 meets.  [lone_collision]
    is a goal already, and its one-bucket tuple hashes like the empty tuple:
    [breadth_first_search], and with it [puzzle_difficulty], raises instead
    of returning the sentinel and the state, a list of length two.  So does
    [puzzle_difficulty] on [hash_collision], which is one move from a
    goal. *)
Theorem hash_collision_loses_difficulty :
  valid lone_collision ∧ State_is_goal lone_collision = true ∧
  tuple_hash (values lone_collision) = tuple_hash [] ∧
  (∀ (order : SetOrder) (fuel : nat), (3 ≤ fuel)%nat →
     breadth_first_search fuel lone_collision
       = Raise (AttributeError "'tuple' object has no attribute 'values'") ∧
     puzzle_difficulty fuel lone_collision
       = Raise (AttributeError "'tuple' object has no attribute 'values'")) ∧
  (∀ (order : SetOrder) (fuel n : nat),
     puzzle_difficulty fuel lone_collision ≠ Return n) ∧
  (∀ order : SetOrder, ∃ fuel0, ∀ fuel, (fuel0 ≤ fuel)%nat →
     puzzle_difficulty fuel hash_collision
       = Raise (AttributeError "'tuple' object has no attribute 'values'")).
Proof.
  assert (Hraise : ∀ (order : SetOrder) (fuel : nat), (3 ≤ fuel)%nat →
            breadth_first_search fuel lone_collision
              = Raise (AttributeError "'tuple' object has no attribute 'values'")).
  { intros order fuel Hfuel. rewrite bfs_goal_initial by done.
    change (eq_sentinel (key lone_collision))
      with (State_eq_sentinel (values lone_collision)).
    by replace (State_eq_sentinel (values lone_collision))
      with (Some (AttributeError "'tuple' object has no attribute 'values'"))
      by (vm_compute; reflexivity). }
  split_and!.
  - repeat constructor; simpl; lia.
  - reflexivity.
  - vm_compute. reflexivity.
  - intros order fuel Hfuel. unfold puzzle_difficulty.
    by rewrite (Hraise order fuel Hfuel).
  - intros order fuel n. unfold puzzle_difficulty.
    destruct (breadth_first_search fuel lone_collision) as [res| |] eqn:Hres;
      [|done..].
    by destruct (raise_never_returns _ 3 _ (Hraise order 3%nat (le_n _)) fuel res).
  - intros order. destruct (hash_collision_raises (order := order)) as [fuel0 Hr].
    exists fuel0. intros fuel Hfuel. unfold puzzle_difficulty.
    by rewrite (Hr fuel Hfuel).
Qed.

(** * The hypotheses of the theorems are satisfiable *)

(** The witnesses iterate sets in insertion order. *)
Section witnesses.
#[local] Existing Instance insertion_order.

(** C2 (amended) applies to [solved_at_start]. *)
Lemma bfs_goal_at_start_witness :
  State_is_goal solved_at_start = true ∧
  tuple_hash (values solved_at_start) ≠ tuple_hash [] ∧ (3 ≤ 3)%nat ∧
  breadth_first_search 3 solved_at_start = Return [Sentinel; Node solved_at_start].
Proof.
  assert (Hhash : tuple_hash (values solved_at_start) ≠ tuple_hash [])
    by (vm_compute; discriminate).
  split_and!; [reflexivity | exact Hhash | lia |].
  exact (bfs_goal_at_start solved_at_start 3 eq_refl Hhash (le_n 3)).
Defined.

(** C3 (amended) applies to [second_full]. *)
Lemma neighbors_contain_self_iff_zero_pour_witness :
  valid second_full ∧
  ∃ l, State_get_neighbors (order := insertion_order) second_full = Return l ∧
    ((∃ n, n ∈ l ∧ values n = values second_full) ↔
     (∃ i j val_i c, i ≠ j ∧ values second_full !! i = Some val_i ∧ val_i ≠ 0 ∧
        values second_full !! j = Some c ∧
        constraints second_full !! j = Some c)) ∧
    (∀ i val, values second_full !! i = Some val → val ≠ 0 →
       State_replace (values second_full) i 0 ≠ values second_full) ∧
    (∀ i val c, values second_full !! i = Some val →
       constraints second_full !! i = Some c →
       val ≠ c → State_replace (values second_full) i c ≠ values second_full).
Proof.
  assert (Hv : valid second_full) by (repeat constructor; simpl; lia).
  split; [exact Hv|].
  exact (neighbors_contain_self_iff_zero_pour (order := insertion_order)
           second_full Hv).
Defined.

(** C4 applies to [second_full]. *)
Lemma neighbors_keep_capacity_invariant_witness :
  valid second_full ∧
  ∃ l, State_get_neighbors (order := insertion_order) second_full = Return l ∧
       ∀ n, n ∈ l → valid n ∧ constraints n = constraints second_full.
Proof.
  assert (Hv : valid second_full) by (repeat constructor; simpl; lia).
  split; [exact Hv|].
  exact (neighbors_keep_capacity_invariant (order := insertion_order) second_full Hv).
Defined.

(** C5 with a budget of 50 iterations. *)
Lemma die_hard_solution_witness :
  (50 ≤ 50)%nat ∧
  breadth_first_search 50 die_hard
  = Return (Sentinel :: (Node <$> die_hard :: die_hard_moves)) ∧
  length (die_hard :: die_hard_moves) = 7%nat ∧
  route die_hard (die_hard :: die_hard_moves) (with_values die_hard [4; 3]) ∧
  last (die_hard :: die_hard_moves) = Some (with_values die_hard [4; 3]) ∧
  4 ∈ values (with_values die_hard [4; 3]).
Proof.
  split; [lia|]. exact (die_hard_solution 50 (le_n 50)).
Defined.

(** C6 applies to [out_of_reach]: capacities (2, 2) and target 3. *)
Lemma unsolvable_returns_empty_witness :
  valid out_of_reach ∧
  (∀ p g, route out_of_reach p g → is_goal g = false) ∧
  (2 * state_space (constraints out_of_reach) + 2 ≤ 20)%nat ∧
  breadth_first_search 20 out_of_reach = Return [].
Proof.
  assert (Hv : valid out_of_reach) by (repeat constructor; simpl; lia).
  assert (Hf : (2 * state_space (constraints out_of_reach) + 2 ≤ 20)%nat)
    by (vm_compute; lia).
  split_and!; [exact Hv | exact out_of_reach_unsolvable | exact Hf |].
  exact (unsolvable_returns_empty out_of_reach 20 Hv out_of_reach_unsolvable Hf).
Defined.

(** C7 applies to the second bucket of [no_refills]. *)
Lemma fill_move_iff_refills_allowed_witness :
  valid no_refills ∧ values no_refills !! 1%nat = Some 0 ∧
  constraints no_refills !! 1%nat = Some 5 ∧
  ∃ l, State_get_neighbors (order := insertion_order) no_refills = Return l ∧
    ((∃ n, n ∈ l ∧ fill_of no_refills 1 n) ↔
       allow_refills no_refills = true ∧ 0 ≠ 5) ∧
    (allow_refills no_refills = false →
       ∀ n j, n ∈ l → ¬ fill_of no_refills j n) ∧
    (allow_refills no_refills = false →
     ∀ a b val_a val_b c_b, a ≠ b →
       values no_refills !! a = Some val_a → val_a ≠ 0 →
       values no_refills !! b = Some val_b →
       constraints no_refills !! b = Some c_b →
       val_b < c_b →
       ∃ n w, n ∈ l ∧ values n !! b = Some w ∧ val_b < w) ∧
    ((∃ n, n ∈ l ∧ values n = State_replace (values no_refills) 1 5) ↔
     (allow_refills no_refills = true ∧ 0 ≠ 5) ∨
     (0 = 5 ∧ ∃ a b val_a c_b, a ≠ b ∧
        values no_refills !! a = Some val_a ∧ val_a ≠ 0 ∧
        values no_refills !! b = Some c_b ∧
        constraints no_refills !! b = Some c_b)) ∧
    (∃ s, for_each (enumerate (values no_refills)) (empty_fill_body no_refills) []
          = Return s ∧
          (State_replace (values no_refills) 1 5 ∈ s ↔
           allow_refills no_refills = true ∧ 0 ≠ 5)).
Proof.
  assert (Hv : valid no_refills) by (repeat constructor; simpl; lia).
  split_and!; [exact Hv | reflexivity | reflexivity |].
  exact (fill_move_iff_refills_allowed (order := insertion_order)
           no_refills 1 0 5 Hv eq_refl eq_refl).
Defined.

(** C8 applies to [die_hard]. *)
Lemma bfs_terminates_on_valid_witness :
  valid die_hard ∧
  (∃ o, (∀ fuel, (2 * state_space (constraints die_hard) + 2 ≤ fuel)%nat →
           breadth_first_search fuel die_hard = o) ∧
        ((∃ res, o = Return res) ∨
          o = Raise (AttributeError "'tuple' object has no attribute 'values'"))) ∧
  (∀ p z, route die_hard p z → values z ∈ all_fills (constraints die_hard)) ∧
  length (all_fills (constraints die_hard)) = state_space (constraints die_hard) ∧
  (∀ n,
     let queued := die_hard :: enqueued n {[ key die_hard := Sentinel ]} [die_hard] in
     NoDup (values <$> queued) ∧
     (length queued ≤ state_space (constraints die_hard))%nat).
Proof.
  assert (Hv : valid die_hard) by (repeat constructor; simpl; lia).
  split; [exact Hv|].
  exact (bfs_terminates_on_valid die_hard Hv).
Defined.

End witnesses.

(** * Further properties of the program *)

(** ** _replace *)

(** X1: within bounds [_replace] keeps the length, holds the new value at
    the index and leaves every other position alone; at or beyond the length
    the slices make it append the new value. *)
Theorem State_replace_positions (values : list Z) (index : nat) (new_val : Z) :
  ((index < length values)%nat →
     length (State_replace values index new_val) = length values ∧
     State_replace values index new_val !! index = Some new_val ∧
     ∀ k, k ≠ index → State_replace values index new_val !! k = values !! k) ∧
  ((length values ≤ index)%nat →
     State_replace values index new_val = values ++ [new_val]).
Proof.
  split.
  - intros Hi. rewrite State_replace_insert by done. split_and!.
    + apply length_insert.
    + by apply list_lookup_insert_eq.
    + intros k Hk. by apply list_lookup_insert_ne.
  - intros Hi. unfold State_replace.
    rewrite take_ge by done. by rewrite drop_ge by lia.
Qed.

(** ** get_neighbors *)

(** X2: with a capacity for every bucket, [get_neighbors] returns states of
    pairwise different values, and a state is returned exactly when its
    values come from one empty, fill or pour move and its other three
    attributes are those of the source. *)
Theorem get_neighbors_exact {order : SetOrder} (self : State) :
  (length (values self) ≤ length (constraints self))%nat →
  ∃ l, State_get_neighbors self = Return l ∧
       NoDup (values <$> l) ∧
       ∀ n, n ∈ l ↔
         move self (values n) ∧ constraints n = constraints self ∧
         target n = target self ∧ allow_refills n = allow_refills self.
Proof.
  intros Hlen.
  destruct (get_neighbors_moves self Hlen) as (ns & Hns & Hnd & Hin).
  exists (with_values self <$> ns). split; [done|]. split.
  - rewrite <- list_fmap_compose.
    by rewrite (list_fmap_ext (values ∘ with_values self) id ns), list_fmap_id.
  - intros n. split.
    + intros (vs & -> & Hvs)%list_elem_of_fmap. simpl. by rewrite <- Hin.
    + intros (Hm & Hc & Ht & Hr). apply list_elem_of_fmap.
      exists (values n). split; [|by apply Hin].
      destruct n. simpl in *. by subst.
Qed.

(** X3: [get_neighbors] raises the [IndexError] of [self.constraints[i]]
    exactly when there are fewer capacities than buckets, and returns
    exactly when there are not. *)
Theorem get_neighbors_raises_iff {order : SetOrder} (self : State) :
  (State_get_neighbors self = Raise (IndexError "tuple index out of range") ↔
   (length (constraints self) < length (values self))%nat) ∧
  ((∃ l, State_get_neighbors self = Return l) ↔
   (length (values self) ≤ length (constraints self))%nat).
Proof.
  assert (Hret : (∃ l, State_get_neighbors self = Return l) ↔
            (length (values self) ≤ length (constraints self))%nat).
  { split.
    - intros [l Hl]. by eapply get_neighbors_raises.
    - intros Hlen. destruct (get_neighbors_moves self Hlen) as (ns & Hns & _).
      by eexists. }
  split; [|done]. split.
  - intros Hraise.
    destruct (decide (length (values self) ≤ length (constraints self))%nat)
      as [Hlen|Hlen]; [|lia].
    apply Hret in Hlen as [l Hl]. congruence.
  - intros Hlen. destruct (get_neighbors_outcome self) as [Hl | Hraise]; [|done].
    apply Hret in Hl. lia.
Qed.

(** The goal test is membership of the target. *)
Lemma State_is_goal_elem (self : State) :
  State_is_goal self = true ↔ target self ∈ values self.
Proof.
  unfold State_is_goal. rewrite existsb_exists. split.
  - by intros (v & Hv%list_elem_of_In & ->%bool_decide_eq_true).
  - intros Hv. exists (target self). split; [by apply list_elem_of_In|].
    by apply bool_decide_eq_true.
Qed.

(** Overwriting one bucket changes the total by the difference. *)
Lemma total_insert (l : list Z) (i : nat) (v x : Z) :
  l !! i = Some v → total (<[i:=x]> l) = total l - v + x.
Proof.
  revert i. induction l as [|a l IH]; intros [|i] Hi; simplify_eq/=; [lia|].
  rewrite (IH i Hi). lia.
Qed.

Lemma elem_le_total (l : list Z) (v : Z) :
  Forall (λ x, 0 ≤ x) l → v ∈ l → v ≤ total l.
Proof.
  induction 1 as [|a l Ha Hl IH]; [by intros ?%elem_of_nil|].
  assert (0 ≤ total l).
  { clear IH. induction Hl; simpl; [done | lia]. }
  intros [-> | Hv%IH]%elem_of_cons; simpl; lia.
Qed.

Lemma valid_nonneg (self : State) :
  valid self → Forall (λ x, 0 ≤ x) (values self).
Proof.
  intros Hvalid. apply Forall_forall. intros v [i Hi]%list_elem_of_lookup.
  destruct (Forall2_lookup_l _ _ _ _ _ Hvalid Hi) as (c & _ & ?). lia.
Qed.

(** A pour keeps the total. *)
Lemma pour_total (l : list Z) (i j : nat) (val_i val_j moving : Z) :
  l !! i = Some val_i → l !! j = Some val_j → i ≠ j →
  total (State_replace (State_replace l j (val_j + moving)) i (val_i - moving))
  = total l.
Proof.
  intros Hi Hj Hij. rewrite (State_replace_lookup l j _ val_j Hj).
  rewrite (State_replace_lookup _ i _ val_i) by (by rewrite list_lookup_insert_ne).
  rewrite (total_insert _ i val_i) by (by rewrite list_lookup_insert_ne).
  rewrite (total_insert _ j val_j) by done. lia.
Qed.

(** Without refills no move adds water. *)
Lemma move_total (self : State) (n : list Z) :
  valid self → allow_refills self = false → move self n →
  total n ≤ total (values self).
Proof.
  intros Hvalid Hr Hmove. pose proof (valid_nonneg self Hvalid) as Hpos.
  destruct Hmove as [i v Hi Hv | i v c Hi Hc Hv Hr' | i j vi vj c Hi Hj Hc Hv Hij Hsp].
  - rewrite (State_replace_lookup _ _ _ v Hi), (total_insert _ i v) by done.
    pose proof (proj1 (Forall_lookup _ _) Hpos i v Hi) as Hv0. simpl in Hv0. lia.
  - congruence.
  - by rewrite pour_total.
Qed.

(** X4: a pour neither adds nor loses water, whatever amount it moves; and
    when refills are not allowed, no neighbour of a valid state holds more
    water in total than the state itself. *)
Theorem neighbors_hold_no_more_water {order : SetOrder} (self : State) :
  valid self →
  ∃ l, State_get_neighbors self = Return l ∧
    (allow_refills self = false →
     ∀ n, n ∈ l → total (values n) ≤ total (values self)) ∧
    (∀ i j val_i val_j moving,
       values self !! i = Some val_i → values self !! j = Some val_j → i ≠ j →
       total (State_replace (State_replace (values self) j (val_j + moving))
                i (val_i - moving))
       = total (values self)).
Proof.
  intros Hvalid.
  destruct (get_neighbors_moves self) as (ns & Hns & _ & Hin).
  { by rewrite (valid_length self Hvalid). }
  exists (with_values self <$> ns). split_and!; [done | |].
  - intros Hr n (vs & -> & Hvs%Hin)%list_elem_of_fmap. simpl.
    by apply move_total.
  - intros i j vi vj m Hi Hj Hij. by apply pour_total.
Qed.

(** ** Configurations that cannot be solved *)

Section unsolvable.
Context {order : SetOrder}.

(** A valid start without a reachable goal makes the search return the empty
    list. *)
Lemma search_unsolvable (s0 : State) (fuel : nat) :
  valid s0 → (∀ p g, route s0 p g → is_goal g = false) →
  (2 * state_space (constraints s0) + 2 ≤ fuel)%nat →
  breadth_first_search fuel s0 = Return [].
Proof.
  intros Hvalid Hnone Hfuel.
  destruct (search_valid s0 Hvalid) as (o & Hv & Hret).
  rewrite (Hret fuel Hfuel). by apply (bfs_verdict_unsolvable s0).
Qed.

(** Without refills the total never grows along a sequence of moves. *)
Lemma route_total (s0 : State) p z :
  valid s0 → allow_refills s0 = false → route s0 p z →
  total (values z) ≤ total (values s0).
Proof.
  intros Hvalid Hr. induction 1 as [|p y z Hroute IH Hs]; [done|].
  destruct (route_valid s0 p y Hvalid Hroute) as [(_ & _ & Hry & _) Hvy].
  apply State_step in Hs as (_ & Hm & _).
  pose proof (move_total y (values z) Hvy ltac:(congruence) Hm). lia.
Qed.

(** What divides every fill level and every capacity still does after a
    move. *)
Lemma move_divisible (g : Z) (self : State) (n : list Z) :
  Forall (Z.divide g) (values self) → Forall (Z.divide g) (constraints self) →
  move self n → Forall (Z.divide g) n.
Proof.
  intros Hv Hc Hmove.
  assert (Hmin : ∀ a b, (g | a) → (g | b) → (g | Z.min a b)).
  { intros a b Ha Hb. destruct (Z.min_spec a b) as [[_ ->] | [_ ->]]; done. }
  apply move_inv in Hmove
    as [(i & v & Hi & _ & ->) | [(i & v & c & Hi & Hci & _ & _ & ->)
    | (i & j & vi & vj & c & Hi & Hj & Hcj & _ & _ & _ & ->)]].
  - apply Forall_insert; [done | apply Z.divide_0_r].
  - apply Forall_insert; [done|]. by eapply (proj1 (Forall_lookup _ _) Hc).
  - pose proof (proj1 (Forall_lookup _ _) Hv i vi Hi) as Hdi.
    pose proof (proj1 (Forall_lookup _ _) Hv j vj Hj) as Hdj.
    pose proof (proj1 (Forall_lookup _ _) Hc j c Hcj) as Hdc.
    assert (g | Z.min vi (c - vj)) by (apply Hmin; [done | by apply Z.divide_sub_r]).
    apply Forall_insert; [apply Forall_insert; [done|]|].
    + by apply Z.divide_add_r.
    + by apply Z.divide_sub_r.
Qed.

Lemma route_divisible (g : Z) (s0 : State) p z :
  Forall (Z.divide g) (values s0) → Forall (Z.divide g) (constraints s0) →
  route s0 p z →
  Forall (Z.divide g) (values z) ∧ constraints z = constraints s0 ∧
  target z = target s0.
Proof.
  intros Hv Hc. induction 1 as [|p y z Hroute (IHv & IHc & IHt) Hs]; [done|].
  apply State_step in Hs as (_ & Hm & ->). simpl. split_and!; [|done..].
  apply (move_divisible g y); [done | by rewrite IHc | done].
Qed.
End unsolvable.

(** X5: when a number divides every initial fill level and every capacity
    but not the target, no bucket ever holds the target, and the search from
    a valid start returns the empty list. *)
Theorem indivisible_target_unsolvable {order : SetOrder} (g : Z)
    (initial_state : State) (fuel : nat) :
  valid initial_state →
  Forall (Z.divide g) (values initial_state) →
  Forall (Z.divide g) (constraints initial_state) →
  ¬ (g | target initial_state) →
  (2 * state_space (constraints initial_state) + 2 ≤ fuel)%nat →
  (∀ p z, route initial_state p z → target initial_state ∉ values z) ∧
  breadth_first_search fuel initial_state = Return [].
Proof.
  intros Hvalid Hv Hc Hg Hfuel.
  assert (Hnever : ∀ p z, route initial_state p z →
            target initial_state ∉ values z).
  { intros p z Hr Hin.
    destruct (route_divisible g initial_state p z Hv Hc Hr) as (Hdz & _ & _).
    apply Hg. by apply (proj1 (Forall_forall _ _) Hdz). }
  split; [done|]. apply search_unsolvable; [done | | done].
  intros p z Hr. apply not_true_is_false. intros Hgoal%State_is_goal_elem.
  destruct (route_divisible g initial_state p z Hv Hc Hr) as (_ & _ & Ht).
  rewrite Ht in Hgoal. by apply (Hnever p z).
Qed.

(** X6: a target that is negative or above every capacity is never held by
    a bucket, and the search from a valid start returns the empty list. *)
Theorem target_out_of_range_unsolvable {order : SetOrder}
    (initial_state : State) (fuel : nat) :
  valid initial_state →
  target initial_state < 0 ∨
    Forall (λ c, c < target initial_state) (constraints initial_state) →
  (2 * state_space (constraints initial_state) + 2 ≤ fuel)%nat →
  (∀ p z, route initial_state p z → target initial_state ∉ values z) ∧
  breadth_first_search fuel initial_state = Return [].
Proof.
  intros Hvalid Hrange Hfuel.
  assert (Hnever : ∀ p z, route initial_state p z →
            target initial_state ∉ values z).
  { intros p z Hr Hin.
    destruct (route_valid initial_state p z Hvalid Hr) as [(Hc & _) Hz].
    apply list_elem_of_lookup in Hin as [i Hi].
    destruct (Forall2_lookup_l _ _ _ _ _ Hz Hi) as (c & Hci & Hle).
    destruct Hrange as [Hneg | Hcap]; [lia|].
    rewrite Hc in Hci.
    pose proof (proj1 (Forall_lookup _ _) Hcap i c Hci). simpl in *. lia. }
  split; [done|]. apply search_unsolvable; [done | | done].
  intros p z Hr. apply not_true_is_false. intros Hgoal%State_is_goal_elem.
  destruct (route_valid initial_state p z Hvalid Hr) as [(_ & Ht & _) _].
  rewrite Ht in Hgoal. by apply (Hnever p z).
Qed.

(** X7: when refills are not allowed the water never grows along a sequence
    of moves from a valid start, so that a target above the initial total
    makes the search return the empty list. *)
Theorem no_refills_target_above_total {order : SetOrder}
    (initial_state : State) (fuel : nat) :
  valid initial_state → allow_refills initial_state = false →
  total (values initial_state) < target initial_state →
  (2 * state_space (constraints initial_state) + 2 ≤ fuel)%nat →
  (∀ p z, route initial_state p z →
     total (values z) ≤ total (values initial_state)) ∧
  breadth_first_search fuel initial_state = Return [].
Proof.
  intros Hvalid Hr Htot Hfuel. split; [intros p z; by apply route_total|].
  apply search_unsolvable; [done | | done].
  intros p z Hroute. apply not_true_is_false. intros Hgoal%State_is_goal_elem.
  destruct (route_valid initial_state p z Hvalid Hroute) as [(_ & Ht & _) Hz].
  pose proof (elem_le_total _ _ (valid_nonneg z Hz) Hgoal).
  pose proof (route_total initial_state p z Hvalid Hr Hroute). lia.
Qed.

(** ** The loops of the search *)

Section loops.
Context {node K : Type} `{Countable K} {searchable : Searchable node K}.

(** X8: the [for] loop over the neighbours never overwrites a recorded
    predecessor; it records the dequeued state for exactly the keys of the
    neighbours that were not explored, and it appends to the queue one
    neighbour for each such key, none of them explored before. *)
Theorem first_discovery_wins (state : node) (neighbors : list node)
    (explored : gmap K (entry node)) (queue : list node) :
  ∃ explored' news,
    foldl (visit state) (explored, queue) neighbors = (explored', queue ++ news) ∧
    (∀ k e, explored !! k = Some e → explored' !! k = Some e) ∧
    (∀ k, explored !! k = None →
       explored' !! k
       = if decide (k ∈ key <$> neighbors) then Some (Node state) else None) ∧
    NoDup (key <$> news) ∧
    (∀ x, x ∈ news → x ∈ neighbors ∧ explored !! key x = None) ∧
    (∀ x, x ∈ neighbors → explored !! key x = None → key x ∈ key <$> news).
Proof.
  destruct (foldl_visit state neighbors explored queue)
    as (news & Hq & Hl & Hnd & Hnew & Hold).
  exists (foldl (visit state) (explored, queue) neighbors).1, news.
  split_and!.
  - rewrite <- Hq. by destruct (foldl _ _ _).
  - intros k e He. rewrite Hl. case_decide as Hk; [|done].
    apply list_elem_of_fmap in Hk as (x & -> & Hx).
    destruct (Hnew x Hx) as [_ Hnone]. congruence.
  - intros k Hk. rewrite Hl, Hk.
    destruct (decide (k ∈ key <$> news)) as [Hin|Hin].
    + rewrite decide_True; [done|].
      apply list_elem_of_fmap in Hin as (x & -> & Hx).
      apply list_elem_of_fmap_2. by apply Hnew.
    + case_decide as Hns; [|done].
      apply list_elem_of_fmap in Hns as (x & -> & Hx).
      destruct (Hold x Hx) as [[e He] | ?]; [congruence | done].
  - done.
  - done.
  - intros x Hx Hnone. destruct (Hold x Hx) as [[e He] | ?]; [congruence | done].
Qed.

(** The [while] loop of [unravel_bfs] extends a linked path to a linked
    path that it cannot extend further, and [path[-1]] never fails on it. *)
Lemma unravel_loop_linked (explored : gmap K (entry node)) (fuel : nat) :
  ∀ path res, path ≠ [] → linked explored (reverse path) →
    unravel_loop fuel path explored = Return res →
    (∃ ext, res = path ++ ext) ∧ linked explored (reverse res) ∧
    ∃ first, last res = Some first ∧
             ∀ s, first = Node s → explored !! key s = None.
Proof.
  induction fuel as [|fuel IH]; intros path res Hne Hlinked Hres; [done|].
  simpl in Hres. destruct (last path) as [[|s]|] eqn:Hlast.
  - destruct (sentinel_lookup explored); simplify_eq.
    split; [exists []; by rewrite app_nil_r|].
    split; [done|]. by exists Sentinel.
  - destruct (explored !! key s) as [prev|] eqn:Hs.
    + destruct (IH (path ++ [prev]) res) as ([ext ->] & Hl & Hfirst); [| |done|].
      * by destruct path.
      * rewrite reverse_app, reverse_singleton. simpl.
        rewrite <- head_reverse in Hlast.
        destruct (reverse path) as [|e r]; simplify_eq/=. done.
      * split; [|done]. exists (prev :: ext). by rewrite <- app_assoc.
    + simplify_eq. split; [exists []; by rewrite app_nil_r|].
      split; [done|]. exists (Node s). split; [done|]. by intros ? [= <-].
  - by apply last_None in Hlast.
Qed.

(** The loop raises only what the lookup of the sentinel raises. *)
Lemma unravel_loop_raise (explored : gmap K (entry node)) (fuel : nat) :
  ∀ path e, path ≠ [] → unravel_loop fuel path explored = Raise e →
    sentinel_lookup explored = Some e.
Proof.
  induction fuel as [|fuel IH]; intros path e Hne; [done|]. simpl.
  destruct (last path) as [[|s]|] eqn:Hlast; [| |by apply last_None in Hlast].
  - destruct (sentinel_lookup explored); [|done]. by intros [= ->].
  - destruct (explored !! key s); [|done]. apply IH. by destruct path.
Qed.

Lemma unravel_bfs_raise (explored : gmap K (entry node)) (fuel : nat)
    (state : node) (e : exn) :
  unravel_bfs fuel state explored = Raise e → sentinel_lookup explored = Some e.
Proof.
  unfold unravel_bfs. intros Hraise.
  destruct (unravel_loop fuel [Node state] explored) as [path|e'|] eqn:Hloop;
    simplify_eq/=.
  by apply unravel_loop_raise in Hloop.
Qed.

(** A list that [unravel_bfs] returns ends with the state it was given,
    every entry after the first is a state whose recorded predecessor is the
    entry before it, and the first entry is not a key of the dictionary. *)
Lemma unravel_bfs_linked (fuel : nat) (state : node)
    (explored : gmap K (entry node)) (res : list (entry node)) :
  unravel_bfs fuel state explored = Return res →
  last res = Some (Node state) ∧ linked explored res ∧
  ∃ first, head res = Some first ∧
           ∀ s, first = Node s → explored !! key s = None.
Proof.
  intros Hres. unfold unravel_bfs in Hres.
  destruct (unravel_loop fuel [Node state] explored) as [path| |] eqn:Hloop;
    simplify_eq/=.
  destruct (unravel_loop_linked explored fuel [Node state] path)
    as ([ext ->] & Hl & first & Hlast & Hfirst); [done..|].
  split_and!.
  - rewrite reverse_app, reverse_singleton. apply last_snoc.
  - done.
  - exists first. by rewrite head_reverse.
Qed.

(** X11: when the recorded predecessors of the given state never lead to the
    sentinel or out of the dictionary, the loop of [unravel_bfs] runs on:
    no budget of iterations is enough. *)
Theorem unravel_bfs_runs_on (P : node → Prop) (state : node)
    (explored : gmap K (entry node)) :
  (∀ x, P x → ∃ prev, explored !! key x = Some (Node prev) ∧ P prev) →
  P state →
  ∀ fuel, unravel_bfs fuel state explored = OutOfFuel.
Proof.
  intros HP Hstate fuel. unfold unravel_bfs.
  assert (Hloop : ∀ fuel path x, last path = Some (Node x) → P x →
            unravel_loop fuel path explored = OutOfFuel).
  { clear fuel. induction fuel as [|fuel IH]; intros path x Hlast Hx; [done|].
    simpl. rewrite Hlast. destruct (HP x Hx) as (prev & -> & Hprev).
    apply (IH _ prev); [apply last_snoc | done]. }
  by rewrite (Hloop fuel [Node state] state).
Qed.
End loops.

(** ** unravel_bfs on its own *)

(** X10: on any dictionary of states, [unravel_bfs] raises nothing but the
    [AttributeError] of a key compared with the empty tuple, and only when
    some key hashes like the empty tuple; a list that it returns ends with
    the state it was given, every entry after the first is a state whose
    recorded predecessor is the entry before it, and the first entry is not
    a key of the dictionary.  In particular a state that is not a key comes
    back alone. *)
Theorem unravel_bfs_follows_predecessors {order : SetOrder} (fuel : nat)
    (state : State) (explored : gmap (list Z) (entry State)) :
  (∀ e, unravel_bfs fuel state explored = Raise e →
     e = AttributeError "'tuple' object has no attribute 'values'" ∧
     ∃ k v, explored !! k = Some v ∧ tuple_hash k = tuple_hash []) ∧
  (∀ res, unravel_bfs fuel state explored = Return res →
     last res = Some (Node state) ∧ linked explored res ∧
     ∃ first, head res = Some first ∧
              ∀ s, first = Node s → explored !! values s = None) ∧
  (explored !! values state = None → (1 ≤ fuel)%nat →
     unravel_bfs fuel state explored = Return [Node state]).
Proof.
  split_and!.
  - intros e He%unravel_bfs_raise.
    apply sentinel_lookup_Some in He as (k & v & Hk & He).
    apply State_eq_sentinel_Some in He as [-> Hhash].
    split; [done|]. by exists k, v.
  - intros res Hres.
    exact (unravel_bfs_linked (searchable := State_Searchable)
             fuel state explored res Hres).
  - intros Hnone Hfuel. destruct fuel as [|fuel]; [lia|].
    unfold unravel_bfs. simpl. by rewrite Hnone.
Qed.

(** ** Exceptions of the search *)

(** X9: [breadth_first_search] lets two exceptions through.  It raises the
    [IndexError] of a missing capacity exactly when the initial state has
    fewer capacities than buckets and is not a goal.  It raises the
    [AttributeError] of a state compared with the empty tuple only when a
    goal can be reached and the values of some state that the moves reach
    hash like the empty tuple. *)
Theorem search_raises_iff {order : SetOrder} (initial_state : State) :
  (∀ msg, (∃ fuel, breadth_first_search fuel initial_state
                   = Raise (IndexError msg)) ↔
     msg = "tuple index out of range" ∧
     (length (constraints initial_state) < length (values initial_state))%nat ∧
     State_is_goal initial_state = false) ∧
  (∀ msg fuel,
     breadth_first_search fuel initial_state = Raise (AttributeError msg) →
     msg = "'tuple' object has no attribute 'values'" ∧
     ∃ p z q g, route initial_state p z ∧ tuple_hash (values z) = tuple_hash [] ∧
                route initial_state q g ∧ is_goal g = true).
Proof.
  assert (Hraise : ∀ fuel e, breadth_first_search fuel initial_state = Raise e →
            (e = IndexError "tuple index out of range" ∧
             (length (constraints initial_state)
              < length (values initial_state))%nat ∧
             State_is_goal initial_state = false) ∨
            (e = AttributeError "'tuple' object has no attribute 'values'" ∧
             ∃ p z q g, route initial_state p z ∧
               tuple_hash (values z) = tuple_hash [] ∧
               route initial_state q g ∧ is_goal g = true)).
  { intros fuel e He.
    assert (Hverdict : bfs_verdict initial_state (Raise e) →
              e = AttributeError "'tuple' object has no attribute 'values'" ∧
              ∃ p z q g, route initial_state p z ∧
                tuple_hash (values z) = tuple_hash [] ∧
                route initial_state q g ∧ is_goal g = true).
    { intros [[? _] | (q & g & Hq & Hg & _
                      & [[? _] | (e' & p & z & [= <-] & Hp & _ & Hz)])]; [done..|].
      apply State_eq_sentinel_Some in Hz as [-> Hz].
      split; [done|]. by exists p, z, q, g. }
    destruct (decide (length (values initial_state)
                      ≤ length (constraints initial_state))%nat) as [Hlen|Hlen].
    { right. apply Hverdict.
      destruct (search_any initial_state fuel Hlen) as [Hout | Hv]; congruence. }
    destruct (State_is_goal initial_state) eqn:Hgoal.
    - right. apply Hverdict.
      pose proof (breadth_first_search_mono_outcome fuel (max fuel 3) _ _ He
                    ltac:(done) ltac:(lia)) as Hbig.
      rewrite <- Hbig, bfs_goal_initial by (done || lia).
      by apply bfs_verdict_goal_initial.
    - left. destruct fuel as [|fuel]; [done|].
      rewrite search_missing_capacity in He by (done || lia).
      split_and!; [congruence | lia | done]. }
  split.
  - intros msg. split.
    + intros [fuel He].
      by destruct (Hraise fuel _ He) as [([= ->] & ? & ?) | [? _]].
    + intros (-> & Hlen & Hgoal). exists 1%nat.
      by apply search_missing_capacity.
  - intros msg fuel He.
    by destruct (Hraise fuel _ He) as [[? _] | ([= ->] & ?)].
Qed.

(** ** puzzle_difficulty *)

(** X12: on a valid state from which the moves reach no state whose values
    hash like the empty tuple, [puzzle_difficulty] returns one number for
    every large enough budget; it is 0 exactly when no goal can be reached,
    2 exactly when the state is a goal already, and never 1. *)
Theorem puzzle_difficulty_values {order : SetOrder} (state : State) :
  valid state →
  (∀ p z, route state p z → tuple_hash (values z) ≠ tuple_hash []) →
  ∃ n : nat,
    (∀ fuel, (2 * state_space (constraints state) + 2 ≤ fuel)%nat →
       puzzle_difficulty fuel state = Return n) ∧
    (n = 0%nat ↔ ∀ p g, route state p g → is_goal g = false) ∧
    (n = 2%nat ↔ State_is_goal state = true) ∧
    n ≠ 1%nat.
Proof.
  intros Hvalid Hclear.
  destruct (search_valid_clear state Hvalid Hclear) as (res & Hpost & Hret).
  exists (length res). split.
  { intros fuel Hfuel. unfold puzzle_difficulty. by rewrite Hret. }
  destruct Hpost as [[-> Hnone] | (q & h & -> & Hq & Hh & Hmin)]; simpl.
  - split_and!; [done | | done].
    split; [done|]. intros Hgoal.
    pose proof (Hnone [state] state (route_start state)) as Hno.
    simpl in Hno. congruence.
  - rewrite length_fmap. pose proof (route_nonempty _ _ _ Hq) as Hlen.
    split_and!; [| |lia].
    + split; [done|]. intros Hnone. pose proof (Hnone q h Hq) as Hno.
      simpl in Hh, Hno. congruence.
    + split.
      * intros Hn. destruct (route_single state q h Hq) as [_ ->]; [lia|]. done.
      * intros Hgoal. pose proof (Hmin [state] state (route_start state) Hgoal).
        simpl in *. lia.
Qed.

(** X13: on a valid state from which the moves reach no state whose values
    hash like the empty tuple, the length of the list that the search
    returns, and with it [puzzle_difficulty], is the same for every order in
    which the sets of neighbours iterate. *)
Theorem puzzle_difficulty_any_order (order1 order2 : SetOrder) (state : State)
    (fuel : nat) :
  valid state →
  (∀ p z, route (searchable := @State_Searchable order1) state p z →
          tuple_hash (values z) ≠ tuple_hash []) →
  (2 * state_space (constraints state) + 2 ≤ fuel)%nat →
  puzzle_difficulty (searchable := @State_Searchable order1) fuel state
  = puzzle_difficulty (searchable := @State_Searchable order2) fuel state.
Proof.
  intros Hvalid Hclear Hfuel.
  destruct (search_valid_clear (order := order1) state Hvalid Hclear)
    as (r1 & Hp1 & Hr1).
  destruct (search_valid_clear (order := order2) state Hvalid)
    as (r2 & Hp2 & Hr2).
  { intros p z Hp. apply (Hclear p z). by apply (route_order order2 order1). }
  unfold puzzle_difficulty. rewrite Hr1, Hr2 by done.
  rewrite !outcome_bind_Return. f_equal.
  destruct Hp1 as [[-> Hn1] | (q1 & h1 & -> & Hq1 & Hh1 & Hm1)];
    destruct Hp2 as [[-> Hn2] | (q2 & h2 & -> & Hq2 & Hh2 & Hm2)].
  - done.
  - apply (route_order order2 order1) in Hq2.
    pose proof (Hn1 q2 h2 Hq2). simpl in *. congruence.
  - apply (route_order order1 order2) in Hq1.
    pose proof (Hn2 q1 h1 Hq1). simpl in *. congruence.
  - simpl. rewrite !length_fmap. f_equal. apply Nat.le_antisymm.
    + apply (Hm1 q2 h2); [by apply (route_order order2 order1) | done].
    + apply (Hm2 q1 h1); [by apply (route_order order1 order2) | done].
Qed.

(** ** The solution that the search returns *)

Section simple_routes.
Context {node K : Type} `{Countable K} {searchable : Searchable node K}.
Context `{EqDecision node}.

(** Sequences of moves can be extended at the front, cut at any position and
    joined where one ends and the other starts. *)
Lemma route_cons (x0 y z : node) p :
  step x0 y → route y p z → route x0 (x0 :: p) z.
Proof.
  intros Hs. induction 1 as [|p y' z Hr IH Hs'].
  - by apply (route_move x0 [x0] x0 y (route_start x0)).
  - by apply (route_move x0 (x0 :: p) y' z).
Qed.

Lemma route_split (a : list node) : ∀ x0 x b z,
  route x0 (a ++ x :: b) z → route x0 (a ++ [x]) x ∧ route x (x :: b) z.
Proof.
  induction a as [|a0 a IH]; intros x0 x b z Hr; simpl in *.
  - pose proof (route_head _ _ _ Hr) as Hhead. simplify_eq/=.
    split; [apply route_start | done].
  - destruct (route_uncons _ _ _ Hr) as [[Heq _] | (y & p' & Heq & Hs & Hr')].
    { by destruct a. }
    simplify_eq. destruct (IH y x b z Hr') as [Hpre Hsuf].
    split; [by eapply route_cons | done].
Qed.

Lemma route_join (x0 x z : node) p b :
  route x0 p x → route x (x :: b) z → route x0 (p ++ b) z.
Proof.
  intros Hp Hb. remember (x :: b) as l eqn:Hl. revert b Hl.
  induction Hb as [|l y z Hr IH Hs]; intros b Hl.
  - simplify_eq. by rewrite app_nil_r.
  - destruct l as [|x' l]; [apply route_nonempty in Hr; simpl in Hr; lia|].
    simplify_eq/=. rewrite app_assoc. eapply route_move; [|done].
    by apply IH.
Qed.

(** A list with a repetition, taken apart at the repeated element. *)
Lemma repetition_split (l : list node) :
  ¬ NoDup l → ∃ a x b c, l = a ++ x :: b ++ x :: c.
Proof.
  induction l as [|x l IH]; intros Hdup; [destruct Hdup; constructor|].
  destruct (decide (x ∈ l)) as [Hx|Hx].
  - apply list_elem_of_split in Hx as (b & c & ->). by exists [], x, b, c.
  - destruct IH as (a & y & b & c & ->).
    { intros Hnd. apply Hdup. by constructor. }
    by exists (x :: a), y, b, c.
Qed.

(** A shortest sequence of moves to a node visits no node twice. *)
Lemma shortest_route_NoDup (x0 h : node) q :
  route x0 q h →
  (∀ p', route x0 p' h → (length q ≤ length p')%nat) →
  NoDup q.
Proof.
  intros Hq Hmin. destruct (decide (NoDup q)) as [|Hdup]; [done|]. exfalso.
  apply repetition_split in Hdup as (a & x & b & c & ->).
  destruct (route_split a x0 x (b ++ x :: c) h Hq) as [Hpre Hrest].
  destruct (route_split (x :: b) x x c h Hrest) as [_ Hsuf].
  pose proof (Hmin _ (route_join _ _ _ _ _ Hpre Hsuf)) as Hle.
  rewrite !length_app in Hle. simpl in Hle. rewrite length_app in Hle.
  simpl in Hle. lia.
Qed.

(** Neighbouring positions of a sequence of moves are one move apart. *)
Lemma route_lookup_step (p : list node) : ∀ x0 z i x y,
  route x0 p z → p !! i = Some x → p !! S i = Some y → step x y.
Proof.
  induction p as [|a p IH]; intros x0 z i x y Hr Hx Hy; [done|].
  destruct (route_uncons _ _ _ Hr) as [[Heq _] | (y' & p' & Heq & Hs & Hr')];
    simplify_eq/=.
  destruct i as [|i]; simplify_eq/=.
  - pose proof (route_head _ _ _ Hr') as Hhead.
    destruct p' as [|b p']; simplify_eq/=. done.
  - by eapply IH.
Qed.
End simple_routes.

(** Two lists of nodes that make the same entries are the same. *)
Lemma fmap_Node_inj {node : Type} (a b : list node) :
  Node <$> a = Node <$> b → a = b.
Proof.
  revert b. induction a as [|x a IH]; intros [|y b] Heq; simplify_eq/=; [done|].
  f_equal. by apply IH.
Qed.

(** Whatever the budget, a list that the search returns on a valid state is
    the one that the capacities' budget yields. *)
Lemma search_result_post {order : SetOrder} (s0 : State) (fuel : nat) res :
  valid s0 → breadth_first_search fuel s0 = Return res → bfs_post s0 res.
Proof.
  intros Hvalid Hres. destruct (search_any s0 fuel) as [Hout | Hv].
  - by rewrite (valid_length s0 Hvalid).
  - congruence.
  - rewrite Hres in Hv. by apply bfs_verdict_post.
Qed.

Lemma route_all_valid {order : SetOrder} (s0 : State) p z :
  valid s0 → route s0 p z → ∀ x, x ∈ p → same_puzzle s0 x ∧ valid x.
Proof.
  intros Hvalid. induction 1 as [|p y z Hr IH Hs].
  - by intros x ->%list_elem_of_singleton.
  - intros x [Hx | ->%list_elem_of_singleton]%elem_of_app; [by apply IH|].
    apply (route_valid s0 (p ++ [z]) z Hvalid). by eapply route_move.
Qed.

(** X14: the states that the search returns from a valid start are valid
    states of the same puzzle, no two of them have the same values, and there
    are at most [product (capacity + 1)] of them. *)
Theorem solution_is_valid_and_simple {order : SetOrder} (initial_state : State)
    (fuel : nat) (q : list State) :
  valid initial_state →
  breadth_first_search fuel initial_state = Return (Sentinel :: (Node <$> q)) →
  (∀ x, x ∈ q → valid x ∧ same_puzzle initial_state x) ∧
  NoDup (values <$> q) ∧
  (length q ≤ state_space (constraints initial_state))%nat.
Proof.
  intros Hvalid Hres.
  destruct (search_result_post initial_state fuel _ Hvalid Hres)
    as [[? _] | (q' & h & Heq & Hq & Hh & Hmin)]; [done|].
  assert (q' = q) as ->.
  { injection Heq as Heq. symmetry. by apply fmap_Node_inj. }
  pose proof (route_all_valid initial_state q h Hvalid Hq) as Hall.
  assert (Hnd : NoDup (values <$> q)).
  { apply NoDup_fmap_2_strong.
    - intros x y Hx Hy Hv. apply (puzzle_key_inj initial_state); [| |done].
      + by apply Hall.
      + by apply Hall.
    - apply (shortest_route_NoDup initial_state h q Hq).
      intros p' Hp'. by apply (Hmin p' h). }
  split_and!; [| done |].
  - intros x Hx. by destruct (Hall x Hx).
  - rewrite <- length_all_fills, <- (length_fmap values q).
    apply submseteq_length, NoDup_submseteq; [done|].
    intros k (x & -> & Hx)%list_elem_of_fmap.
    destruct (Hall x Hx) as [(Hc & _) Hvx].
    rewrite <- Hc. by apply elem_of_all_fills.
Qed.

(** ** pretty_print *)

Lemma same_puzzle_with_values (s0 x : State) :
  same_puzzle s0 x → x = with_values s0 (values x).
Proof. destruct x. intros (Hc & Ht & Hr & _). simpl in *. by subst. Qed.

(** X15: on a valid start from which the moves reach no state whose values
    hash like the empty tuple, [pretty_print] of what the search returns
    hands to [print] either the empty list, when no goal can be reached, or
    the empty tuple followed by tuples of which the first holds the initial
    values, the last holds the target, and each is one move from the one
    before. *)
Theorem pretty_print_search {order : SetOrder} (initial_state : State) :
  valid initial_state →
  (∀ p z, route initial_state p z → tuple_hash (values z) ≠ tuple_hash []) →
  ∃ rows,
    (∀ fuel, (2 * state_space (constraints initial_state) + 2 ≤ fuel)%nat →
       (backtrace ← breadth_first_search fuel initial_state;
        Return (pretty_print backtrace)) = Return rows) ∧
    ((rows = [] ∧ ∀ p g, route initial_state p g → is_goal g = false) ∨
     (∃ tuples last_row,
        rows = [] :: tuples ∧
        head tuples = Some (values initial_state) ∧
        last tuples = Some last_row ∧ target initial_state ∈ last_row ∧
        ∀ i a b, tuples !! i = Some a → tuples !! S i = Some b →
                 move (with_values initial_state a) b)).
Proof.
  intros Hvalid Hclear.
  destruct (search_valid_clear initial_state Hvalid Hclear)
    as (res & Hpost & Hret).
  exists (pretty_print res). split.
  { intros fuel Hfuel. by rewrite Hret. }
  destruct Hpost as [[-> Hnone] | (q & h & -> & Hq & Hh & _)]; [by left|].
  right. exists (values <$> q), (values h).
  pose proof (route_all_valid initial_state q h Hvalid Hq) as Hall.
  split_and!.
  - unfold pretty_print. simpl. f_equal. by rewrite <- list_fmap_compose.
  - pose proof (route_head _ _ _ Hq) as Hhead. by destruct q; simplify_eq/=.
  - by rewrite fmap_last, (route_last _ _ _ Hq).
  - destruct (route_valid initial_state q h Hvalid Hq) as [(_ & Ht & _) _].
    rewrite <- Ht. by apply State_is_goal_elem.
  - intros i a b Ha Hb.
    apply list_lookup_fmap_Some in Ha as (x & -> & Hx).
    apply list_lookup_fmap_Some in Hb as (y & -> & Hy).
    pose proof (route_lookup_step q _ _ i x y Hq Hx Hy) as Hs.
    apply State_step in Hs as (_ & Hm & _).
    rewrite <- (same_puzzle_with_values initial_state x); [done|].
    apply Hall. by eapply list_elem_of_lookup_2.
Qed.

(** ** A state without buckets *)

(** X16: a state without buckets is not a goal and has no neighbour; its
    search returns the empty list after one iteration, and its difficulty is
    0, whatever its capacities and target. *)
Theorem no_buckets_no_solution {order : SetOrder} (state : State) (fuel : nat) :
  values state = [] → (2 ≤ fuel)%nat →
  State_is_goal state = false ∧
  State_get_neighbors state = Return [] ∧
  breadth_first_search fuel state = Return [] ∧
  puzzle_difficulty fuel state = Return 0%nat.
Proof.
  intros Hv Hfuel.
  assert (Hsearch : breadth_first_search fuel state = Return [])
    by by apply search_no_buckets.
  split_and!.
  - unfold State_is_goal. by rewrite Hv.
  - unfold State_get_neighbors. rewrite Hv. simpl.
    by rewrite (proj1 (Permutation_nil_r _) (iter_order_perm [])).
  - done.
  - unfold puzzle_difficulty. by rewrite Hsearch.
Qed.

(** ** The number of neighbours *)

Lemma length_bind_const {A B : Type} (f : A → list B) (l : list A) (k : nat) :
  (∀ x, x ∈ l → length (f x) = k) → length (l ≫= f) = (length l * k)%nat.
Proof.
  induction l as [|a l IH]; intros Hf; [done|].
  rewrite bind_cons, length_app, Hf by (by left). simpl.
  rewrite IH; [done|]. intros x Hx. apply Hf. by right.
Qed.

(** X17: with [n] buckets, a capacity for each, [get_neighbors] returns at
    most [n * (n + 1)] states: [n] buckets to empty, [n] to fill and
    [n * (n - 1)] pours. *)
Theorem neighbors_at_most {order : SetOrder} (self : State) :
  (length (values self) ≤ length (constraints self))%nat →
  ∃ l, State_get_neighbors self = Return l ∧
       (length l ≤ length (values self) * (length (values self) + 1))%nat.
Proof.
  intros Hlen.
  destruct (get_neighbors_moves self Hlen) as (ns & Hns & Hnd & Hin).
  exists (with_values self <$> ns). split; [done|]. rewrite length_fmap.
  set (n := length (values self)).
  set (val := λ i, default 0 (values self !! i)).
  set (cap := λ i, default 0 (constraints self !! i)).
  set (pour := λ i j, <[i:=val i - Z.min (val i) (cap j - val j)]>
                        (<[j:=val j + Z.min (val i) (cap j - val j)]> (values self))).
  set (emptied := (λ i, <[i:=0]> (values self)) <$> seq 0 n).
  set (filled := (λ i, <[i:=cap i]> (values self)) <$> seq 0 n).
  set (poured := seq 0 n ≫= λ i,
         (λ k, pour i (if decide (k < i)%nat then k else S k)) <$> seq 0 (n - 1)).
  assert (Hall : ∀ v, v ∈ ns → v ∈ emptied ++ filled ++ poured).
  { intros v Hv%Hin%move_inv. rewrite !elem_of_app.
    destruct Hv as [(i & x & Hi & _ & ->) | [(i & x & c & Hi & Hc & _ & _ & ->)
      | (i & j & vi & vj & c & Hi & Hj & Hc & _ & Hij & _ & ->)]].
    - left. apply list_elem_of_fmap. exists i. split; [done|].
      apply elem_of_seq. apply lookup_lt_Some in Hi. unfold n. lia.
    - right. left. apply list_elem_of_fmap. exists i. split.
      + unfold cap. by rewrite Hc.
      + apply elem_of_seq. apply lookup_lt_Some in Hi. unfold n. lia.
    - right. right. apply list_elem_of_bind. exists i.
      pose proof (lookup_lt_Some _ _ _ Hi). pose proof (lookup_lt_Some _ _ _ Hj).
      split; [|apply elem_of_seq; unfold n; lia].
      apply list_elem_of_fmap.
      exists (if decide (j < i)%nat then j else pred j). split.
      + assert ((if decide ((if decide (j < i)%nat then j else pred j) < i)%nat
                 then (if decide (j < i)%nat then j else pred j)
                 else S (if decide (j < i)%nat then j else pred j)) = j) as ->.
        { repeat case_decide; lia. }
        unfold pour, val, cap. by rewrite Hi, Hj, Hc.
      + apply elem_of_seq. unfold n. case_decide; lia. }
  transitivity (length (emptied ++ filled ++ poured)).
  { by apply submseteq_length, NoDup_submseteq. }
  rewrite !length_app. unfold emptied, filled, poured.
  rewrite !length_fmap, !length_seq.
  rewrite (length_bind_const _ _ (n - 1)), length_seq.
  - destruct n; [done|]. simpl. rewrite Nat.sub_0_r. nia.
  - intros i _. by rewrite length_fmap, length_seq.
Qed.

(** ** Emptying every bucket *)

Lemma State_replace_middle (a b : list Z) (v x : Z) :
  State_replace (a ++ v :: b) (length a) x = a ++ x :: b.
Proof.
  unfold State_replace. induction a as [|y a IH]; simpl in *; [done|].
  by f_equal.
Qed.

Lemma with_values_same (self : State) : with_values self (values self) = self.
Proof. by destruct self. Qed.

(** Emptying the first [k] buckets one after the other. *)
Lemma empty_first_buckets {order : SetOrder} (self : State) (k : nat) :
  (length (values self) ≤ length (constraints self))%nat →
  (k ≤ length (values self))%nat →
  ∃ p, route self p
         (with_values self (replicate k 0 ++ drop k (values self))) ∧
       (length p ≤ S k)%nat.
Proof.
  intros Hlen. induction k as [|k IH]; intros Hk.
  - exists [self]. simpl. rewrite drop_0, with_values_same.
    split; [apply route_start | done].
  - destruct IH as (p & Hp & Hlp); [lia|].
    destruct (lookup_lt_is_Some_2 (values self) k) as [v Hv]; [lia|].
    rewrite (drop_S _ _ _ Hv) in Hp.
    rewrite replicate_S_end, <- app_assoc. simpl.
    destruct (decide (v = 0)) as [->|Hne].
    { exists p. split; [done | lia]. }
    exists (p ++ [with_values self (replicate k 0 ++ 0 :: drop (S k) (values self))]).
    split; [|rewrite length_app; simpl; lia].
    eapply route_move; [done|]. apply State_step. simpl. split_and!.
    + rewrite length_app, length_replicate. simpl. rewrite length_drop. lia.
    + rewrite <- (State_replace_middle (replicate k 0) _ v 0).
      rewrite length_replicate.
      pose proof (move_empty
        (with_values self (replicate k 0 ++ v :: drop (S k) (values self)))
        k v) as Hmove.
      simpl in Hmove. apply Hmove; [|done].
      rewrite lookup_app_r by (by rewrite length_replicate).
      by rewrite length_replicate, Nat.sub_diag.
    + done.
Qed.

Lemma emptying_path {order : SetOrder} (self : State) :
  valid self →
  ∃ p, route self p (with_values self (replicate (length (values self)) 0)) ∧
       (length p ≤ S (length (values self)))%nat.
Proof.
  intros Hvalid.
  destruct (empty_first_buckets self (length (values self))) as (p & Hp & Hlp).
  { by rewrite (valid_length self Hvalid). }
  { done. }
  rewrite drop_all, app_nil_r in Hp. by exists p.
Qed.

(** X18: from every state with a capacity for each of its [n] buckets, at
    most [n] moves lead to the state of the same puzzle in which every
    bucket is empty. *)
Theorem emptying_reaches_empty {order : SetOrder} (self : State) :
  (length (values self) ≤ length (constraints self))%nat →
  ∃ p, route self p (with_values self (replicate (length (values self)) 0)) ∧
       (length p ≤ S (length (values self)))%nat.
Proof.
  intros Hlen.
  destruct (empty_first_buckets self (length (values self)) Hlen (le_n _))
    as (p & Hp & Hlp).
  rewrite drop_all, app_nil_r in Hp. by exists p.
Qed.

(** X19: when some sequence of moves solves a puzzle from empty buckets,
    the search solves it from every valid state of [n] buckets from which
    the moves reach no state whose values hash like the empty tuple, with at
    most [n] states more than that sequence has. *)
Theorem solvable_from_empty_solvable {order : SetOrder} (state : State)
    (p : list State) (g : State) :
  valid state →
  (∀ p z, route state p z → tuple_hash (values z) ≠ tuple_hash []) →
  route (with_values state (replicate (length (values state)) 0)) p g →
  is_goal g = true →
  ∃ q h,
    (∀ fuel, (2 * state_space (constraints state) + 2 ≤ fuel)%nat →
       breadth_first_search fuel state = Return (Sentinel :: (Node <$> q))) ∧
    route state q h ∧ is_goal h = true ∧
    (length q ≤ length (values state) + length p)%nat.
Proof.
  intros Hvalid Hclear Hp Hg.
  destruct (emptying_path state Hvalid) as (e & He & Hle).
  destruct (search_valid_clear state Hvalid Hclear) as (res & Hpost & Hret).
  assert (Hroute : ∃ r, route state r g ∧
            (length r ≤ length (values state) + length p)%nat).
  { pose proof (route_head _ _ _ Hp) as Hhead.
    destruct p as [|x b]; simplify_eq/=.
    exists (e ++ b). split; [by eapply route_join|].
    rewrite length_app. lia. }
  destruct Hroute as (r & Hr & Hlr).
  destruct (bfs_post_solvable _ _ _ _ Hpost Hr Hg) as (q & h & -> & Hq & Hh & Hmin).
  exists q, h. split_and!; [done..|].
  pose proof (Hmin r g Hr Hg). lia.
Qed.

(** ** The search and the hash of the empty tuple *)

(** X20: for every solvable initial state from which the moves reach no
    state whose values hash like the empty tuple, [breadth_first_search]
    returns, behind the sentinel, the positions of a sequence of legal moves
    from the initial state to a goal, no sequence of legal moves to a goal is
    shorter, and [puzzle_difficulty] returns one plus the number of those
    positions. *)
Theorem search_returns_shortest_route {order : SetOrder} (initial_state : State)
    (p : list State) (g : State) :
  route initial_state p g → is_goal g = true →
  (∀ p z, route initial_state p z → tuple_hash (values z) ≠ tuple_hash []) →
  ∃ q h fuel0,
    head q = Some initial_state ∧ last q = Some h ∧
    route initial_state q h ∧ is_goal h = true ∧
    (∀ p' g', route initial_state p' g' → is_goal g' = true →
              (length q ≤ length p')%nat) ∧
    ∀ fuel, (fuel0 ≤ fuel)%nat →
      breadth_first_search fuel initial_state
      = Return (Sentinel :: (Node <$> q)) ∧
      puzzle_difficulty fuel initial_state = Return (1 + length q)%nat.
Proof.
  intros Hr Hg Hclear.
  destruct (search_solvable_clear initial_state p g Hr Hg Hclear)
    as (res & fuel0 & Hpost & Hret).
  destruct (bfs_post_solvable _ _ _ _ Hpost Hr Hg) as (q & h & -> & Hq & Hh & Hmin).
  exists q, h, fuel0.
  split_and!; [by eapply route_head | by eapply route_last | done..|].
  intros fuel Hfuel. unfold puzzle_difficulty.
  rewrite (Hret fuel Hfuel), outcome_bind_Return. simpl.
  by rewrite length_fmap.
Qed.

(** X21: whatever the state and the budget, a list that
    [breadth_first_search] returns is either empty, and then no sequence of
    legal moves reaches a goal, or the sentinel followed by the positions of
    a sequence of legal moves from the initial state to a goal, than which
    no sequence of legal moves to a goal is shorter. *)
Theorem returned_list_is_shortest_route {order : SetOrder}
    (initial_state : State) (fuel : nat) (res : list (entry State)) :
  breadth_first_search fuel initial_state = Return res →
  (res = [] ∧ ∀ p z, route initial_state p z → is_goal z = false) ∨
  (∃ q h, res = Sentinel :: (Node <$> q) ∧
          head q = Some initial_state ∧ last q = Some h ∧
          route initial_state q h ∧ is_goal h = true ∧
          ∀ p' g', route initial_state p' g' → is_goal g' = true →
                   (length q ≤ length p')%nat).
Proof.
  intros Hres.
  assert (Hpost : bfs_post initial_state res).
  { destruct (decide (length (values initial_state)
                      ≤ length (constraints initial_state))%nat) as [Hlen|Hlen].
    { destruct (search_any initial_state fuel Hlen) as [Hout | Hv]; [congruence|].
      rewrite Hres in Hv. by apply bfs_verdict_post. }
    destruct (State_is_goal initial_state) eqn:Hgoal.
    - pose proof (breadth_first_search_mono fuel (max fuel 3) _ _ Hres
                    ltac:(lia)) as Hbig.
      rewrite bfs_goal_initial in Hbig by (done || lia).
      destruct (eq_sentinel (key initial_state)); simplify_eq.
      by apply bfs_post_goal_initial.
    - destruct fuel as [|fuel]; [done|].
      rewrite search_missing_capacity in Hres by (done || lia). done. }
  destruct Hpost as [? | (q & h & -> & Hq & Hh & Hmin)]; [by left|].
  right. exists q, h.
  split_and!; [done | by eapply route_head | by eapply route_last | done..].
Qed.

(** X22: when a goal can be reached, and legal moves reach a state whose
    values hash like the empty tuple in no more positions than any sequence
    of legal moves needs to reach a goal, [breadth_first_search] and
    [puzzle_difficulty] raise [AttributeError] for every large enough
    budget and every iteration order, and the search returns for none. *)
Theorem reachable_collision_raises {order : SetOrder} (initial_state : State)
    (p : list State) (z : State) (q : list State) (g : State) :
  route initial_state p z → tuple_hash (values z) = tuple_hash [] →
  route initial_state q g → is_goal g = true →
  (∀ q' g', route initial_state q' g' → is_goal g' = true →
            (length p ≤ length q')%nat) →
  (∀ fuel res, breadth_first_search fuel initial_state ≠ Return res) ∧
  ∃ fuel0, ∀ fuel, (fuel0 ≤ fuel)%nat →
    breadth_first_search fuel initial_state
      = Raise (AttributeError "'tuple' object has no attribute 'values'") ∧
    puzzle_difficulty fuel initial_state
      = Raise (AttributeError "'tuple' object has no attribute 'values'").
Proof.
  intros Hp Hz Hq Hg Hnear.
  destruct (search_collision initial_state p z q g Hp Hz Hq Hg Hnear)
    as [fuel0 Hraise].
  split.
  - apply (raise_never_returns _ fuel0 _ (Hraise fuel0 (le_n _))).
  - exists fuel0. intros fuel Hfuel. unfold puzzle_difficulty.
    by rewrite (Hraise fuel Hfuel).
Qed.

(** * The hypotheses of the further properties are satisfiable *)

Section further_witnesses.
#[local] Existing Instance insertion_order.

(** X2 applies to [second_full]. *)
Lemma get_neighbors_exact_witness :
  (length (values second_full) ≤ length (constraints second_full))%nat ∧
  ∃ l, State_get_neighbors (order := insertion_order) second_full = Return l ∧
       NoDup (values <$> l) ∧
       ∀ n, n ∈ l ↔
         move second_full (values n) ∧ constraints n = constraints second_full ∧
         target n = target second_full ∧
         allow_refills n = allow_refills second_full.
Proof.
  assert (Hlen : (length (values second_full)
                  ≤ length (constraints second_full))%nat) by (simpl; lia).
  split; [exact Hlen|].
  exact (get_neighbors_exact (order := insertion_order) second_full Hlen).
Defined.

(** X4 applies to [no_refills]. *)
Lemma neighbors_hold_no_more_water_witness :
  valid no_refills ∧
  ∃ l, State_get_neighbors (order := insertion_order) no_refills = Return l ∧
    (allow_refills no_refills = false →
     ∀ n, n ∈ l → total (values n) ≤ total (values no_refills)) ∧
    (∀ i j val_i val_j moving,
       values no_refills !! i = Some val_i →
       values no_refills !! j = Some val_j → i ≠ j →
       total (State_replace (State_replace (values no_refills) j (val_j + moving))
                i (val_i - moving))
       = total (values no_refills)).
Proof.
  assert (Hv : valid no_refills) by (repeat constructor; simpl; lia).
  split; [exact Hv|].
  exact (neighbors_hold_no_more_water (order := insertion_order) no_refills Hv).
Defined.

(** X5 applies to [even_buckets] with the divisor 2. *)
Lemma indivisible_target_unsolvable_witness :
  valid even_buckets ∧
  Forall (Z.divide 2) (values even_buckets) ∧
  Forall (Z.divide 2) (constraints even_buckets) ∧
  ¬ (2 | target even_buckets) ∧
  (2 * state_space (constraints even_buckets) + 2 ≤ 32)%nat ∧
  (∀ p z, route even_buckets p z → target even_buckets ∉ values z) ∧
  breadth_first_search 32 even_buckets = Return [].
Proof.
  assert (Hv : valid even_buckets) by (repeat constructor; simpl; lia).
  assert (Hdv : Forall (Z.divide 2) (values even_buckets))
    by (repeat constructor; by exists 0).
  assert (Hdc : Forall (Z.divide 2) (constraints even_buckets))
    by (repeat constructor; [by exists 2 | by exists 1]).
  assert (Hg : ¬ (2 | target even_buckets)) by (intros [k Hk]; simpl in Hk; lia).
  assert (Hf : (2 * state_space (constraints even_buckets) + 2 ≤ 32)%nat)
    by (vm_compute; lia).
  split_and!; [exact Hv | exact Hdv | exact Hdc | exact Hg | exact Hf | |];
    apply (indivisible_target_unsolvable 2 even_buckets 32 Hv Hdv Hdc Hg Hf).
Defined.

(** X6 applies to [out_of_reach]: both capacities are below the target. *)
Lemma target_out_of_range_unsolvable_witness :
  valid out_of_reach ∧
  (target out_of_reach < 0 ∨
   Forall (λ c, c < target out_of_reach) (constraints out_of_reach)) ∧
  (2 * state_space (constraints out_of_reach) + 2 ≤ 20)%nat ∧
  (∀ p z, route out_of_reach p z → target out_of_reach ∉ values z) ∧
  breadth_first_search 20 out_of_reach = Return [].
Proof.
  assert (Hv : valid out_of_reach) by (repeat constructor; simpl; lia).
  assert (Hr : target out_of_reach < 0 ∨
               Forall (λ c, c < target out_of_reach) (constraints out_of_reach))
    by (right; repeat constructor; simpl; lia).
  assert (Hf : (2 * state_space (constraints out_of_reach) + 2 ≤ 20)%nat)
    by (vm_compute; lia).
  split_and!; [exact Hv | exact Hr | exact Hf | |];
    apply (target_out_of_range_unsolvable out_of_reach 20 Hv Hr Hf).
Defined.

(** X7 applies to [short_of_water]: three units, target 4. *)
Lemma no_refills_target_above_total_witness :
  valid short_of_water ∧ allow_refills short_of_water = false ∧
  total (values short_of_water) < target short_of_water ∧
  (2 * state_space (constraints short_of_water) + 2 ≤ 50)%nat ∧
  (∀ p z, route short_of_water p z →
     total (values z) ≤ total (values short_of_water)) ∧
  breadth_first_search 50 short_of_water = Return [].
Proof.
  assert (Hv : valid short_of_water) by (repeat constructor; simpl; lia).
  assert (Ht : total (values short_of_water) < target short_of_water)
    by (simpl; lia).
  assert (Hf : (2 * state_space (constraints short_of_water) + 2 ≤ 50)%nat)
    by (vm_compute; lia).
  split_and!; [exact Hv | reflexivity | exact Ht | exact Hf | |];
    apply (no_refills_target_above_total short_of_water 50 Hv eq_refl Ht Hf).
Defined.

(** X11 applies to a dictionary in which [die_hard] is its own
    predecessor. *)
Lemma unravel_bfs_runs_on_witness :
  (∀ x, x = die_hard →
     ∃ prev, ({[ key die_hard := Node die_hard ]} : gmap (list Z) (entry State))
               !! key x = Some (Node prev) ∧ prev = die_hard) ∧
  die_hard = die_hard ∧
  ∀ fuel, unravel_bfs fuel die_hard
            ({[ key die_hard := Node die_hard ]} : gmap (list Z) (entry State))
          = OutOfFuel.
Proof.
  assert (Hloop : ∀ x, x = die_hard →
     ∃ prev, ({[ key die_hard := Node die_hard ]} : gmap (list Z) (entry State))
               !! key x = Some (Node prev) ∧ prev = die_hard).
  { intros x ->. exists die_hard. split; [apply lookup_singleton_eq | reflexivity]. }
  split_and!; [exact Hloop | reflexivity |].
  exact (unravel_bfs_runs_on (λ x, x = die_hard) die_hard _ Hloop eq_refl).
Defined.

(** X12 applies to [die_hard]. *)
Lemma puzzle_difficulty_values_witness :
  valid die_hard ∧
  (∀ p z, route die_hard p z → tuple_hash (values z) ≠ tuple_hash []) ∧
  ∃ n : nat,
    (∀ fuel, (2 * state_space (constraints die_hard) + 2 ≤ fuel)%nat →
       puzzle_difficulty fuel die_hard = Return n) ∧
    (n = 0%nat ↔ ∀ p g, route die_hard p g → is_goal g = false) ∧
    (n = 2%nat ↔ State_is_goal die_hard = true) ∧
    n ≠ 1%nat.
Proof.
  assert (Hv : valid die_hard) by (repeat constructor; simpl; lia).
  split_and!; [exact Hv | exact die_hard_clear |].
  exact (puzzle_difficulty_values die_hard Hv die_hard_clear).
Defined.

(** X13 applies to [die_hard], iterated in insertion order and in its
    reverse. *)
Lemma puzzle_difficulty_any_order_witness :
  valid die_hard ∧
  (∀ p z, route (searchable := @State_Searchable insertion_order) die_hard p z →
          tuple_hash (values z) ≠ tuple_hash []) ∧
  (2 * state_space (constraints die_hard) + 2 ≤ 50)%nat ∧
  puzzle_difficulty (searchable := @State_Searchable insertion_order) 50 die_hard
  = puzzle_difficulty (searchable := @State_Searchable reverse_order) 50 die_hard.
Proof.
  assert (Hv : valid die_hard) by (repeat constructor; simpl; lia).
  assert (Hf : (2 * state_space (constraints die_hard) + 2 ≤ 50)%nat)
    by (vm_compute; lia).
  split_and!; [exact Hv | exact die_hard_clear | exact Hf |].
  exact (puzzle_difficulty_any_order insertion_order reverse_order die_hard 50
           Hv die_hard_clear Hf).
Defined.

(** X14 applies to the seven states that the search returns on [die_hard]. *)
Lemma solution_is_valid_and_simple_witness :
  valid die_hard ∧
  breadth_first_search 50 die_hard
  = Return (Sentinel :: (Node <$> die_hard :: die_hard_moves)) ∧
  (∀ x, x ∈ die_hard :: die_hard_moves → valid x ∧ same_puzzle die_hard x) ∧
  NoDup (values <$> die_hard :: die_hard_moves) ∧
  (length (die_hard :: die_hard_moves) ≤ state_space (constraints die_hard))%nat.
Proof.
  assert (Hv : valid die_hard) by (repeat constructor; simpl; lia).
  assert (Hres : breadth_first_search 50 die_hard
                 = Return (Sentinel :: (Node <$> die_hard :: die_hard_moves)))
    by (vm_compute; reflexivity).
  split_and!; [exact Hv | exact Hres | | |];
    apply (solution_is_valid_and_simple die_hard 50 (die_hard :: die_hard_moves)
             Hv Hres).
Defined.

(** X15 applies to [die_hard]. *)
Lemma pretty_print_search_witness :
  valid die_hard ∧
  (∀ p z, route die_hard p z → tuple_hash (values z) ≠ tuple_hash []) ∧
  ∃ rows,
    (∀ fuel, (2 * state_space (constraints die_hard) + 2 ≤ fuel)%nat →
       (backtrace ← breadth_first_search fuel die_hard;
        Return (pretty_print backtrace)) = Return rows) ∧
    ((rows = [] ∧ ∀ p g, route die_hard p g → is_goal g = false) ∨
     (∃ tuples last_row,
        rows = [] :: tuples ∧
        head tuples = Some (values die_hard) ∧
        last tuples = Some last_row ∧ target die_hard ∈ last_row ∧
        ∀ i a b, tuples !! i = Some a → tuples !! S i = Some b →
                 move (with_values die_hard a) b)).
Proof.
  assert (Hv : valid die_hard) by (repeat constructor; simpl; lia).
  split_and!; [exact Hv | exact die_hard_clear |].
  exact (pretty_print_search die_hard Hv die_hard_clear).
Defined.

(** X16 applies to [no_buckets]. *)
Lemma no_buckets_no_solution_witness :
  values no_buckets = [] ∧ (2 ≤ 2)%nat ∧
  State_is_goal no_buckets = false ∧
  State_get_neighbors (order := insertion_order) no_buckets = Return [] ∧
  breadth_first_search 2 no_buckets = Return [] ∧
  puzzle_difficulty 2 no_buckets = Return 0%nat.
Proof.
  split_and!; [reflexivity | lia | | | |];
    apply (no_buckets_no_solution (order := insertion_order) no_buckets 2
             eq_refl (le_n 2)).
Defined.

(** X17 applies to [second_full]: at most six neighbours. *)
Lemma neighbors_at_most_witness :
  (length (values second_full) ≤ length (constraints second_full))%nat ∧
  ∃ l, State_get_neighbors (order := insertion_order) second_full = Return l ∧
       (length l ≤ length (values second_full)
                   * (length (values second_full) + 1))%nat.
Proof.
  assert (Hlen : (length (values second_full)
                  ≤ length (constraints second_full))%nat) by (simpl; lia).
  split; [exact Hlen|].
  exact (neighbors_at_most (order := insertion_order) second_full Hlen).
Defined.

(** X18 applies to [second_full]. *)
Lemma emptying_reaches_empty_witness :
  (length (values second_full) ≤ length (constraints second_full))%nat ∧
  ∃ p, route second_full p
         (with_values second_full (replicate (length (values second_full)) 0)) ∧
       (length p ≤ S (length (values second_full)))%nat.
Proof.
  assert (Hlen : (length (values second_full)
                  ≤ length (constraints second_full))%nat) by (simpl; lia).
  split; [exact Hlen|].
  exact (emptying_reaches_empty second_full Hlen).
Defined.

(** X19 applies to [second_full], whose puzzle [die_hard_moves] solves from
    empty buckets. *)
Lemma solvable_from_empty_solvable_witness :
  valid second_full ∧
  (∀ p z, route second_full p z → tuple_hash (values z) ≠ tuple_hash []) ∧
  route (with_values second_full (replicate (length (values second_full)) 0))
    (die_hard :: die_hard_moves) (with_values die_hard [4; 3]) ∧
  is_goal (with_values die_hard [4; 3]) = true ∧
  ∃ q h,
    (∀ fuel, (2 * state_space (constraints second_full) + 2 ≤ fuel)%nat →
       breadth_first_search fuel second_full = Return (Sentinel :: (Node <$> q))) ∧
    route second_full q h ∧ is_goal h = true ∧
    (length q ≤ length (values second_full)
                + length (die_hard :: die_hard_moves))%nat.
Proof.
  assert (Hv : valid second_full) by (repeat constructor; simpl; lia).
  assert (Hclear : ∀ p z, route second_full p z →
            tuple_hash (values z) ≠ tuple_hash []).
  { apply valid_clear; [exact Hv|].
    refine (bool_decide_unpack _ _). vm_compute. exact I. }
  split_and!; [exact Hv | exact Hclear | exact die_hard_route | reflexivity |].
  exact (solvable_from_empty_solvable second_full (die_hard :: die_hard_moves)
           (with_values die_hard [4; 3]) Hv Hclear die_hard_route eq_refl).
Defined.

(** X20 applies to [die_hard], which six moves solve. *)
Lemma search_returns_shortest_route_witness :
  route die_hard (die_hard :: die_hard_moves) (with_values die_hard [4; 3]) ∧
  is_goal (with_values die_hard [4; 3]) = true ∧
  (∀ p z, route die_hard p z → tuple_hash (values z) ≠ tuple_hash []) ∧
  ∃ q h fuel0,
    head q = Some die_hard ∧ last q = Some h ∧
    route die_hard q h ∧ is_goal h = true ∧
    (∀ p' g', route die_hard p' g' → is_goal g' = true →
              (length q ≤ length p')%nat) ∧
    ∀ fuel, (fuel0 ≤ fuel)%nat →
      breadth_first_search fuel die_hard = Return (Sentinel :: (Node <$> q)) ∧
      puzzle_difficulty fuel die_hard = Return (1 + length q)%nat.
Proof.
  split_and!; [exact die_hard_route | reflexivity | exact die_hard_clear |].
  exact (search_returns_shortest_route die_hard (die_hard :: die_hard_moves)
           (with_values die_hard [4; 3]) die_hard_route eq_refl die_hard_clear).
Defined.

(** X21 applies to what the search returns on [die_hard]. *)
Lemma returned_list_is_shortest_route_witness :
  breadth_first_search 50 die_hard
  = Return (Sentinel :: (Node <$> die_hard :: die_hard_moves)) ∧
  ((Sentinel :: (Node <$> die_hard :: die_hard_moves) = [] ∧
    ∀ p z, route die_hard p z → is_goal z = false) ∨
   (∃ q h, Sentinel :: (Node <$> die_hard :: die_hard_moves)
           = Sentinel :: (Node <$> q) ∧
           head q = Some die_hard ∧ last q = Some h ∧
           route die_hard q h ∧ is_goal h = true ∧
           ∀ p' g', route die_hard p' g' → is_goal g' = true →
                    (length q ≤ length p')%nat)).
Proof.
  assert (Hres : breadth_first_search 50 die_hard
                 = Return (Sentinel :: (Node <$> die_hard :: die_hard_moves)))
    by (vm_compute; reflexivity).
  split; [exact Hres|].
  exact (returned_list_is_shortest_route die_hard 50 _ Hres).
Defined.

(** X22 applies to [hash_collision]. *)
Lemma reachable_collision_raises_witness :
  route hash_collision
    [hash_collision; with_values hash_collision [0; 268219835420928158]]
    (with_values hash_collision [0; 268219835420928158]) ∧
  tuple_hash (values (with_values hash_collision [0; 268219835420928158]))
  = tuple_hash [] ∧
  route hash_collision [hash_collision; with_values hash_collision [5; 0]]
    (with_values hash_collision [5; 0]) ∧
  is_goal (with_values hash_collision [5; 0]) = true ∧
  (∀ q' g', route hash_collision q' g' → is_goal g' = true →
     (2 ≤ length q')%nat) ∧
  (∀ fuel res, breadth_first_search fuel hash_collision ≠ Return res) ∧
  ∃ fuel0, ∀ fuel, (fuel0 ≤ fuel)%nat →
    breadth_first_search fuel hash_collision
      = Raise (AttributeError "'tuple' object has no attribute 'values'") ∧
    puzzle_difficulty fuel hash_collision
      = Raise (AttributeError "'tuple' object has no attribute 'values'").
Proof.
  assert (Hz : tuple_hash
                 (values (with_values hash_collision [0; 268219835420928158]))
               = tuple_hash []) by (vm_compute; reflexivity).
  split_and!; [exact hash_collision_fill | exact Hz | exact hash_collision_goal
              | reflexivity | exact hash_collision_near | |];
    apply (reachable_collision_raises hash_collision _ _ _ _
             hash_collision_fill Hz hash_collision_goal eq_refl
             hash_collision_near).
Defined.

End further_witnesses.
